(** * score-addon-ltc: the LTC decoder, the LTC generator and the xwax DVS
      decoder, embedded from LTC/LTC.cpp, LTC/XWax.hpp and the LTC input
      processor.

    C++ [double] values are IEEE binary64 numbers, modelled by Rocq's
    primitive floats; [int] and [int64_t] values are integers in [Z] with the
    wrap-around of their width written out where the code does arithmetic on
    them.  The external collaborators (libltc's decoder and encoder, xwax's
    timecoder, the steady clock) are not part of the sources: what they
    return is an input of the tick that asks for it, or comes from an
    interface the engine is parametrised over. *)

From Stdlib Require Import ZArith Lia List Bool String Floats Uint63.
From stdpp Require Import base tactics list.
Import ListNotations.

#[local] Set Warnings "-inexact-float".
#[local] Open Scope Z_scope.

(** ** Machine integers *)

Module Int.

Definition wrap (bits : Z) (z : Z) : Z :=
  (z + 2 ^ (bits - 1)) mod 2 ^ bits - 2 ^ (bits - 1).

Definition wrap32 : Z -> Z := wrap 32.
Definition wrap64 : Z -> Z := wrap 64.
Definition INT64_MAX : Z := 2 ^ 63 - 1.

(** [(uint8_t)x] *)
Definition to_uint8 (z : Z) : Z := z mod 256.

Lemma wrap64_small z : - 2 ^ 63 <= z <= INT64_MAX -> wrap64 z = z.
Proof.
  unfold wrap64, wrap, INT64_MAX. intros Hz.
  rewrite Z.mod_small; lia.
Qed.

Lemma wrap32_small z : - 2 ^ 31 <= z < 2 ^ 31 -> wrap32 z = z.
Proof.
  unfold wrap32, wrap. intros Hz.
  rewrite Z.mod_small; lia.
Qed.

End Int.

(** ** IEEE doubles *)

Module Double.

(** [static_cast<double>(z)] for an integer of magnitude below 2^63. *)
Definition of_Z (z : Z) : float :=
  if z <? 0 then PrimFloat.opp (PrimFloat.of_uint63 (Uint63.of_Z (- z)))
  else PrimFloat.of_uint63 (Uint63.of_Z z).

(** The integer part of a finite double (rounding toward zero); [None] for
    an infinity or a NaN. *)
Definition trunc (f : float) : option Z :=
  match Prim2SF f with
  | S754_zero _ => Some 0
  | S754_finite s m e =>
      let a := if 0 <=? e then Z.pos m * 2 ^ e else Z.pos m / 2 ^ (- e) in
      Some (if s then - a else a)
  | S754_infinity _ | S754_nan => None
  end.

(** [static_cast<T>(f)] to a signed integer type of [bits] bits.  The
    conversion is undefined in C++ when the integer part does not fit; the
    model returns the most negative value there, as the x86 conversion
    instructions do. *)
Definition to_signed (bits : Z) (f : float) : Z :=
  match trunc f with
  | Some z =>
      if (- 2 ^ (bits - 1) <=? z) && (z <? 2 ^ (bits - 1)) then z
      else - 2 ^ (bits - 1)
  | None => - 2 ^ (bits - 1)
  end.

(** [std::clamp(v, lo, hi)]: [(v < lo) ? lo : (hi < v) ? hi : v]. *)
Definition clamp (v lo hi : float) : float :=
  if PrimFloat.ltb v lo then lo else if PrimFloat.ltb hi v then hi else v.

(** [a != b] on doubles: true as soon as one side is a NaN. *)
Definition neq (a b : float) : bool := negb (PrimFloat.eqb a b).

End Double.

(** ** The libltc types the engines exchange with the codec *)

Module Ltc.

Inductive LTC_TV_STANDARD :=
  | LTC_TV_525_60
  | LTC_TV_625_50
  | LTC_TV_1125_60
  | LTC_TV_FILM_24.

(** Modelled from the spec: libltc's [LTCFrame] (ltc.h is not among the
    sources), reduced to the binary-coded digits of the time address and the
    drop-frame bit, the fields "hours/minutes/seconds/frame-number" are
    decomposed from. *)
Record LTCFrame := mkLTCFrame {
  frame_units : Z;
  frame_tens : Z;
  dfbit : Z;
  secs_units : Z;
  secs_tens : Z;
  mins_units : Z;
  mins_tens : Z;
  hours_units : Z;
  hours_tens : Z
}.

(** Modelled from the spec: libltc's [LTCFrameExt], the decoded frame with
    its "reverse flag" and "estimated signal volume". *)
Record LTCFrameExt := mkLTCFrameExt {
  ltc : LTCFrame;
  reverse : Z;
  volume : float
}.

Record SMPTETimecode := mkSMPTE {
  hours : Z;
  mins : Z;
  secs : Z;
  frame : Z
}.

(** Modelled from the spec: libltc's [ltc_frame_to_time], which "decomposes
    [the frame] to hours/minutes/seconds/frame-number"; each field is its
    tens digit times ten plus its units digit. *)
Definition ltc_frame_to_time (f : LTCFrame) : SMPTETimecode :=
  {| hours := hours_tens f * 10 + hours_units f;
     mins := mins_tens f * 10 + mins_units f;
     secs := secs_tens f * 10 + secs_units f;
     frame := frame_tens f * 10 + frame_units f |}.

End Ltc.

(** ** The decode engine: [ao::LTCInput] *)

Module LTCInput.
Import Ltc.

Inductive FrameRate := FPS_24 | FPS_25 | FPS_2997 | FPS_30 | Auto.

Inductive OutputFormat :=
  Seconds | Milliseconds | Microseconds | Nanoseconds | Flicks.

Record Inputs := mkInputs {
  offset : Z;
  format : OutputFormat;
  framerate : FrameRate;
  queue_size : Z
}.

Record Outputs := mkOutputs {
  timecode : float;
  valid : bool;
  frame_rate : float;
  drop_frame : bool;
  out_reverse : bool;
  out_volume : float
}.

(** What [ltc_decoder_create(apv, queue_size)] was called with; the decoder
    itself is libltc's. *)
Record LTCDecoder := mkDecoder {
  apv : Z;
  queue_len : Z
}.

(** The object's members.  [m_last_valid_time] is a reading of the steady
    clock, in nanoseconds. *)
Record state := mkState {
  inputs : Inputs;
  outputs : Outputs;
  m_setup_rate : float;
  m_decoder : option LTCDecoder;
  m_sample_position : Z;
  m_last_frame : LTCFrameExt;
  m_last_valid_time : Z
}.

(** One call of [operator()]: the tick's frame count, the frames
    [ltc_decoder_read] hands out during the call (oldest first), and the two
    readings of the steady clock the call may take, the first when a frame
    was read, the second in [check_timeout]. *)
Record tick := mkTick {
  frames : Z;
  decoded : list LTCFrameExt;
  now_frame : Z;
  now_check : Z
}.

Definition set_outputs (o : Outputs) (s : state) : state :=
  {| inputs := inputs s; outputs := o; m_setup_rate := m_setup_rate s;
     m_decoder := m_decoder s; m_sample_position := m_sample_position s;
     m_last_frame := m_last_frame s;
     m_last_valid_time := m_last_valid_time s |}.

Definition set_inputs (i : Inputs) (s : state) : state :=
  {| inputs := i; outputs := outputs s; m_setup_rate := m_setup_rate s;
     m_decoder := m_decoder s; m_sample_position := m_sample_position s;
     m_last_frame := m_last_frame s;
     m_last_valid_time := m_last_valid_time s |}.

Definition set_valid (b : bool) (o : Outputs) : Outputs :=
  {| timecode := timecode o; valid := b; frame_rate := frame_rate o;
     drop_frame := drop_frame o; out_reverse := out_reverse o;
     out_volume := out_volume o |}.

(** The members' initial values. *)
Definition constructed : state :=
  {| inputs := {| offset := 0; format := Seconds; framerate := Auto;
                  queue_size := 32 |};
     outputs := {| timecode := 0; valid := false; frame_rate := 30;
                   drop_frame := false; out_reverse := false;
                   out_volume := (-96)%float |};
     m_setup_rate := 0;
     m_decoder := None;
     m_sample_position := 0;
     m_last_frame := {| ltc := mkLTCFrame 0 0 0 0 0 0 0 0 0; reverse := 0;
                        volume := 0 |};
     m_last_valid_time := 0 |}.

Definition reinit_decoder (now : Z) (s : state) : state :=
  if PrimFloat.leb (m_setup_rate s) 1 then
    {| inputs := inputs s; outputs := outputs s;
       m_setup_rate := m_setup_rate s; m_decoder := None;
       m_sample_position := m_sample_position s;
       m_last_frame := m_last_frame s;
       m_last_valid_time := m_last_valid_time s |}
  else
    let apv := Double.to_signed 32 (m_setup_rate s / 30)%float in
    {| inputs := inputs s; outputs := outputs s;
       m_setup_rate := m_setup_rate s;
       m_decoder := Some (mkDecoder apv (queue_size (inputs s)));
       m_sample_position := 0;
       m_last_frame := m_last_frame s;
       m_last_valid_time := now |}.

Definition prepare (rate : float) (now : Z) (s : state) : state :=
  reinit_decoder now
    {| inputs := inputs s; outputs := outputs s; m_setup_rate := rate;
       m_decoder := m_decoder s; m_sample_position := m_sample_position s;
       m_last_frame := m_last_frame s;
       m_last_valid_time := m_last_valid_time s |}.

Definition get_frame_rate_from_standard
    (standard : LTC_TV_STANDARD) (drop : bool) : float :=
  match standard with
  | LTC_TV_525_60 | LTC_TV_1125_60 => if drop then 29.97%float else 30%float
  | LTC_TV_625_50 => 25%float
  | LTC_TV_FILM_24 => 24%float
  end.

Definition detect_standard (i : Inputs) (f : LTCFrame) : LTC_TV_STANDARD :=
  match framerate i with
  | FPS_24 => LTC_TV_FILM_24
  | FPS_25 => LTC_TV_625_50
  | FPS_2997 | FPS_30 => LTC_TV_525_60
  | Auto =>
      if negb (dfbit f =? 0) then LTC_TV_525_60
      else
        let max_frame := frame_tens f * 10 + frame_units f in
        if max_frame >=? 25 then LTC_TV_525_60
        else if max_frame >=? 24 then LTC_TV_625_50
        else LTC_TV_FILM_24
  end.

Definition get_configured_fps (i : Inputs) : float :=
  match framerate i with
  | FPS_24 => 24%float
  | FPS_25 => 25%float
  | FPS_2997 => 29.97%float
  | FPS_30 => 30%float
  | Auto => 30%float
  end.

Definition to_seconds (i : Inputs) (tc : SMPTETimecode) (fps : float) : float :=
  let total_seconds :=
    (Double.of_Z (hours tc) * 3600 + Double.of_Z (mins tc) * 60
     + Double.of_Z (secs tc) + Double.of_Z (frame tc) / fps)%float in
  (total_seconds + Double.of_Z (offset i))%float.

Definition convert_output (fmt : OutputFormat) (seconds : float) : float :=
  match fmt with
  | Seconds => seconds
  | Milliseconds => (seconds * 1000)%float
  | Microseconds => (seconds * 1e6)%float
  | Nanoseconds => (seconds * 1e9)%float
  | Flicks => (seconds * 705600000)%float
  end.

(** [duration_cast<milliseconds>(now - last).count()]: whole milliseconds,
    rounded toward zero. *)
Definition elapsed_ms (now last : Z) : Z := Z.quot (now - last) 1000000.

Definition check_timeout (now : Z) (s : state) : state :=
  if elapsed_ms now (m_last_valid_time s) >? 500
  then set_outputs (set_valid false (outputs s)) s
  else s.

(** The [while(ltc_decoder_read(...) > 0)] loop: every queued frame is
    copied over [m_last_frame], so the last one stays. *)
Definition drain (queued : list LTCFrameExt) (last : LTCFrameExt)
    : bool * LTCFrameExt :=
  fold_left (fun acc f => (true, f)) queued (false, last).

(** The [if(got_frame)] block. *)
Definition publish (now : Z) (s : state) : state :=
  let fr := m_last_frame s in
  let tc := ltc_frame_to_time (ltc fr) in
  let standard := detect_standard (inputs s) (ltc fr) in
  let is_drop_frame := negb (dfbit (ltc fr) =? 0) in
  let fps0 := get_frame_rate_from_standard standard is_drop_frame in
  let fps :=
    match framerate (inputs s) with
    | Auto => fps0
    | _ => get_configured_fps (inputs s)
    end in
  let seconds := to_seconds (inputs s) tc fps in
  {| inputs := inputs s;
     outputs := {| timecode := convert_output (format (inputs s)) seconds;
                   valid := true;
                   frame_rate := fps;
                   drop_frame := is_drop_frame;
                   out_reverse := negb (reverse fr =? 0);
                   out_volume := volume fr |};
     m_setup_rate := m_setup_rate s;
     m_decoder := m_decoder s;
     m_sample_position := m_sample_position s;
     m_last_frame := fr;
     m_last_valid_time := now |}.

(** [operator()(halp::tick_flicks tk)] *)
Definition operator (tk : tick) (s : state) : state :=
  match m_decoder s with
  | None => s
  | Some _ =>
      if frames tk <=? 0 then s
      else
        let '(got_frame, last) := drain (decoded tk) (m_last_frame s) in
        let s1 :=
          {| inputs := inputs s; outputs := outputs s;
             m_setup_rate := m_setup_rate s; m_decoder := m_decoder s;
             m_sample_position :=
               Int.wrap64 (m_sample_position s + frames tk);
             m_last_frame := last;
             m_last_valid_time := m_last_valid_time s |} in
        let s2 := if got_frame then publish (now_frame tk) s1 else s1 in
        check_timeout (now_check tk) s2
  end.

(** What the host does to the object between ticks. *)
Inductive event :=
  | EvPrepare (rate : float) (now : Z)
  | EvQueueSize (q : Z) (now : Z)
  | EvOffset (o : Z)
  | EvFormat (f : OutputFormat)
  | EvFramerate (r : FrameRate)
  | EvTick (tk : tick).

Definition step (s : state) (e : event) : state :=
  let i := inputs s in
  match e with
  | EvPrepare rate now => prepare rate now s
  | EvQueueSize q now =>
      reinit_decoder now
        (set_inputs (mkInputs (offset i) (format i) (framerate i) q) s)
  | EvOffset o =>
      set_inputs (mkInputs o (format i) (framerate i) (queue_size i)) s
  | EvFormat f =>
      set_inputs (mkInputs (offset i) f (framerate i) (queue_size i)) s
  | EvFramerate r =>
      set_inputs (mkInputs (offset i) (format i) r (queue_size i)) s
  | EvTick tk => operator tk s
  end.

Definition run (evs : list event) (s : state) : state := fold_left step evs s.

Definition is_reinit (e : event) : bool :=
  match e with
  | EvPrepare _ _ | EvQueueSize _ _ => true
  | _ => false
  end.

(** A tick is processed when the decoder exists and the tick has frames. *)
Definition processed (tk : tick) (s : state) : bool :=
  match m_decoder s with
  | None => false
  | Some _ => 0 <? frames tk
  end.

(** The frame counts of the ticks of [evs] that carry frames. *)
Definition frames_fed (evs : list event) : Z :=
  fold_right
    (fun e acc =>
       match e with
       | EvTick tk => if 0 <? frames tk then frames tk + acc else acc
       | _ => acc
       end) 0 evs.

Definition got_frame (tk : tick) : bool :=
  match decoded tk with
  | [] => false
  | _ :: _ => true
  end.

(** *** Facts about the loop that empties the decoder's queue *)

Lemma drain_nil last : drain [] last = (false, last).
Proof. reflexivity. Qed.

Lemma drain_snoc queued fr last : drain (queued ++ [fr]) last = (true, fr).
Proof. unfold drain. now rewrite fold_left_app. Qed.

Lemma drain_got queued last : fst (drain queued last) = negb (forallb (fun _ => false) queued).
Proof.
  destruct queued as [|f queued]; [reflexivity|].
  destruct (exists_last (l := f :: queued)) as (q & x & ->); [discriminate|].
  rewrite drain_snoc. simpl.
  rewrite forallb_app. simpl. now rewrite andb_false_r.
Qed.

Lemma drain_got_frame tk last : fst (drain (decoded tk) last) = got_frame tk.
Proof.
  rewrite drain_got. unfold got_frame. now destruct (decoded tk).
Qed.

(** *** What a processed tick leaves in the state *)

Lemma check_timeout_frame_rate now s :
  frame_rate (outputs (check_timeout now s)) = frame_rate (outputs s).
Proof. unfold check_timeout. now destruct (_ >? _). Qed.

Lemma check_timeout_members now s :
  m_sample_position (check_timeout now s) = m_sample_position s
  /\ m_decoder (check_timeout now s) = m_decoder s
  /\ m_last_valid_time (check_timeout now s) = m_last_valid_time s
  /\ inputs (check_timeout now s) = inputs s.
Proof. unfold check_timeout. now destruct (_ >? _). Qed.

Lemma check_timeout_valid now s :
  valid (outputs (check_timeout now s))
  = if 500 <? elapsed_ms now (m_last_valid_time s) then false
    else valid (outputs s).
Proof.
  unfold check_timeout. rewrite Z.gtb_ltb. now destruct (500 <? _).
Qed.

Lemma operator_unfold tk s d :
  m_decoder s = Some d -> 0 < frames tk ->
  operator tk s
  = let s1 :=
      {| inputs := inputs s; outputs := outputs s;
         m_setup_rate := m_setup_rate s; m_decoder := m_decoder s;
         m_sample_position := Int.wrap64 (m_sample_position s + frames tk);
         m_last_frame := snd (drain (decoded tk) (m_last_frame s));
         m_last_valid_time := m_last_valid_time s |} in
    check_timeout (now_check tk)
      (if got_frame tk then publish (now_frame tk) s1 else s1).
Proof.
  intros Hd Hf. unfold operator. rewrite Hd.
  destruct (frames tk <=? 0) eqn:E; [apply Z.leb_le in E; lia|].
  rewrite <- (drain_got_frame tk (m_last_frame s)).
  now destruct (drain (decoded tk) (m_last_frame s)) as [g l].
Qed.

Lemma operator_skipped tk s : processed tk s = false -> operator tk s = s.
Proof.
  unfold processed, operator. destruct (m_decoder s); [|reflexivity].
  intros H. apply Z.ltb_ge in H.
  destruct (frames tk <=? 0) eqn:E; [reflexivity|apply Z.leb_gt in E; lia].
Qed.

Lemma operator_position tk s :
  m_sample_position (operator tk s)
  = if processed tk s then Int.wrap64 (m_sample_position s + frames tk)
    else m_sample_position s.
Proof.
  destruct (processed tk s) eqn:P; [|now rewrite operator_skipped].
  unfold processed in P. destruct (m_decoder s) as [d|] eqn:Hd; [|discriminate].
  apply Z.ltb_lt in P. rewrite (operator_unfold _ _ d Hd P). cbv zeta.
  destruct (check_timeout_members (now_check tk)
    (if got_frame tk then publish (now_frame tk)
       {| inputs := inputs s; outputs := outputs s;
          m_setup_rate := m_setup_rate s; m_decoder := m_decoder s;
          m_sample_position := Int.wrap64 (m_sample_position s + frames tk);
          m_last_frame := snd (drain (decoded tk) (m_last_frame s));
          m_last_valid_time := m_last_valid_time s |}
     else
       {| inputs := inputs s; outputs := outputs s;
          m_setup_rate := m_setup_rate s; m_decoder := m_decoder s;
          m_sample_position := Int.wrap64 (m_sample_position s + frames tk);
          m_last_frame := snd (drain (decoded tk) (m_last_frame s));
          m_last_valid_time := m_last_valid_time s |})) as (-> & _).
  now destruct (got_frame tk).
Qed.

Lemma operator_decoder tk s : m_decoder (operator tk s) = m_decoder s.
Proof.
  destruct (processed tk s) eqn:P; [|now rewrite operator_skipped].
  unfold processed in P. destruct (m_decoder s) as [d|] eqn:Hd; [|discriminate].
  apply Z.ltb_lt in P. rewrite (operator_unfold _ _ d Hd P). cbv zeta.
  match goal with |- m_decoder (check_timeout ?n ?x) = _ =>
    destruct (check_timeout_members n x) as (_ & -> & _) end.
  now destruct (got_frame tk).
Qed.

(** *** Rate detection *)

(** C1.  While the selected rate standard is Auto, a tick that reads at
    least one frame publishes, for the last frame read: 29.97 when its
    drop-frame bit is set, whatever its frame number; otherwise 30 for a
    frame number of 25 and more, 25 for the frame number 24, and 24 for a
    frame number below 24. *)
Theorem auto_rate_detection
    (s : state) (d : LTCDecoder) (tk : tick)
    (earlier : list LTCFrameExt) (fr : LTCFrameExt) :
  framerate (inputs s) = Auto ->
  m_decoder s = Some d ->
  0 < frames tk ->
  decoded tk = earlier ++ [fr] ->
  let n := frame_tens (ltc fr) * 10 + frame_units (ltc fr) in
  let fps := frame_rate (outputs (operator tk s)) in
  (dfbit (ltc fr) <> 0 -> fps = 29.97%float)
  /\ (dfbit (ltc fr) = 0 -> 25 <= n -> fps = 30%float)
  /\ (dfbit (ltc fr) = 0 -> n = 24 -> fps = 25%float)
  /\ (dfbit (ltc fr) = 0 -> n < 24 -> fps = 24%float).
Proof.
  intros Hauto Hd Hf Hq n fps. subst fps.
  rewrite (operator_unfold _ _ d Hd Hf). cbv zeta.
  rewrite check_timeout_frame_rate.
  unfold got_frame. rewrite Hq, drain_snoc.
  destruct (earlier ++ [fr]) eqn:E; [now destruct earlier|clear E].
  unfold publish; cbn [outputs frame_rate inputs m_last_frame snd].
  rewrite Hauto. unfold detect_standard; cbn [inputs]. rewrite Hauto.
  fold n. repeat split.
  - intros Hdf. apply Z.eqb_neq in Hdf. now rewrite Hdf.
  - intros -> Hn. cbn [Z.eqb negb].
    destruct (n >=? 25) eqn:E; [reflexivity|].
    rewrite Z.geb_leb in E. apply Z.leb_gt in E. lia.
  - intros -> Hn. cbn [Z.eqb negb]. now rewrite Hn.
  - intros -> Hn. cbn [Z.eqb negb].
    destruct (n >=? 25) eqn:E1.
    { rewrite Z.geb_leb in E1. apply Z.leb_le in E1. lia. }
    destruct (n >=? 24) eqn:E2; [|reflexivity].
    rewrite Z.geb_leb in E2. apply Z.leb_le in E2. lia.
Qed.

(** *** Unit conversion *)

(** C8.  The output conversion multiplies the time in seconds by the
    factor of the selected unit (the seconds themselves for Seconds, whose
    factor is 1), and a tick that reads a frame publishes the converted
    time; 2 s are 2000 ms and 1 s is 705600000 flicks. *)
Theorem convert_output_multiplicative :
  (forall sec : float,
     convert_output Seconds sec = sec
     /\ convert_output Milliseconds sec = (sec * 1000)%float
     /\ convert_output Microseconds sec = (sec * 1000000)%float
     /\ convert_output Nanoseconds sec = (sec * 1000000000)%float
     /\ convert_output Flicks sec = (sec * 705600000)%float)
  /\ (forall now s,
        timecode (outputs (publish now s))
        = convert_output (format (inputs s))
            (to_seconds (inputs s) (ltc_frame_to_time (ltc (m_last_frame s)))
               (frame_rate (outputs (publish now s)))))
  /\ convert_output Seconds 2 = (2 * 1)%float
  /\ convert_output Milliseconds 2 = 2000%float
  /\ convert_output Flicks 1 = 705600000%float.
Proof.
  split; [|split]; [| |repeat split].
  - intros sec. repeat split.
  - intros now s. reflexivity.
Qed.

(** *** The validity timeout *)

(** C2, as the code has it.  On a tick that is processed (the decoder
    exists and the tick has frames), whether or not a frame was read,
    [valid] is forced to false when the whole milliseconds elapsed since the
    last-valid time exceed 500; below the timeout [valid] is true when a
    frame was read and is left as it was when none was.  A tick that is not
    processed (no decoder, or no frames) leaves the whole state, [valid]
    included, as it was.  The last-valid time is set by a processed tick that
    reads a frame, to the clock reading of that tick, and by a
    reinitialisation that creates the decoder (prepare or a queue-size change
    at a sample rate above 1), to the clock reading of the reinitialisation;
    nothing else changes it, and a reinitialisation does not touch [valid]. *)
Theorem timeout_on_processed_ticks (s : state) (tk : tick) :
  let last_valid :=
    if got_frame tk then now_frame tk else m_last_valid_time s in
  let elapsed := elapsed_ms (now_check tk) last_valid in
  (processed tk s = true ->
   m_last_valid_time (operator tk s) = last_valid
   /\ (500 < elapsed -> valid (outputs (operator tk s)) = false)
   /\ (elapsed <= 500 ->
       valid (outputs (operator tk s))
       = if got_frame tk then true else valid (outputs s)))
  /\ (processed tk s = false -> operator tk s = s)
  /\ (forall e,
        m_last_valid_time (step s e)
        = match e with
          | EvTick t =>
              if processed t s && got_frame t then now_frame t
              else m_last_valid_time s
          | EvPrepare rate now =>
              if PrimFloat.leb rate 1 then m_last_valid_time s else now
          | EvQueueSize _ now =>
              if PrimFloat.leb (m_setup_rate s) 1 then m_last_valid_time s
              else now
          | EvOffset _ | EvFormat _ | EvFramerate _ => m_last_valid_time s
          end)
  /\ (forall e, is_reinit e = true ->
        valid (outputs (step s e)) = valid (outputs s)).
Proof.
  assert (Hsplit : forall t, processed t s = true ->
            exists d, m_decoder s = Some d /\ 0 < frames t).
  { intros t P. unfold processed in P.
    destruct (m_decoder s) as [d|]; [|discriminate].
    exists d. split; [reflexivity|now apply Z.ltb_lt]. }
  assert (Hlast : forall t, processed t s = true ->
            m_last_valid_time (operator t s)
            = if got_frame t then now_frame t else m_last_valid_time s).
  { intros t P. destruct (Hsplit t P) as (d & Hd & Hf).
    rewrite (operator_unfold _ _ d Hd Hf). cbv zeta.
    match goal with |- context [check_timeout ?n ?x] =>
      destruct (check_timeout_members n x) as (_ & _ & Ht & _); rewrite Ht end.
    now destruct (got_frame t). }
  intros last_valid elapsed. split; [|split; [|split]].
  - intros P. split; [exact (Hlast tk P)|].
    pose proof (Hlast tk P) as Hl. fold last_valid in Hl.
    destruct (Hsplit tk P) as (d & Hd & Hf).
    rewrite (operator_unfold _ _ d Hd Hf) in *. cbv zeta in *.
    match goal with |- context [check_timeout ?n ?x] =>
      destruct (check_timeout_members n x) as (_ & _ & Ht & _);
      rewrite (check_timeout_valid n x); rewrite Ht in Hl; rewrite Hl end.
    fold elapsed. split.
    + intros H. apply Z.ltb_lt in H. now rewrite H.
    + intros H. apply Z.ltb_ge in H. rewrite H. now destruct (got_frame tk).
  - apply operator_skipped.
  - intros [rate now|q now|o|f|r|t]; cbn [step].
    + unfold prepare, reinit_decoder. cbn [m_setup_rate].
      now destruct (PrimFloat.leb rate 1).
    + unfold reinit_decoder, set_inputs. cbn [m_setup_rate].
      now destruct (PrimFloat.leb (m_setup_rate s) 1).
    + reflexivity.
    + reflexivity.
    + reflexivity.
    + destruct (processed t s) eqn:P; [|now rewrite operator_skipped].
      now rewrite (Hlast t P).
  - intros [rate now|q now|o|f|r|t] He; try discriminate He; cbn [step].
    + unfold prepare, reinit_decoder. cbn [m_setup_rate].
      now destruct (PrimFloat.leb rate 1).
    + unfold reinit_decoder, set_inputs. cbn [m_setup_rate].
      now destruct (PrimFloat.leb (m_setup_rate s) 1).
Qed.

(** *** The sample-position counter *)

Lemma frames_fed_nonneg evs : 0 <= frames_fed evs.
Proof.
  induction evs as [|[? ?|? ?|?|?|?|tk] evs IH]; simpl; try lia.
  destruct (0 <? frames tk) eqn:E; [apply Z.ltb_lt in E|]; lia.
Qed.

Lemma frames_fed_app pre post :
  frames_fed (pre ++ post) = frames_fed pre + frames_fed post.
Proof.
  induction pre as [|[? ?|? ?|?|?|?|tk] pre IH]; simpl; try lia.
  destruct (0 <? frames tk); lia.
Qed.

Lemma run_counts_frames evs : forall s d,
  m_decoder s = Some d ->
  forallb (fun e => negb (is_reinit e)) evs = true ->
  0 <= m_sample_position s ->
  m_sample_position s + frames_fed evs <= Int.INT64_MAX ->
  m_decoder (run evs s) = Some d
  /\ m_sample_position (run evs s) = m_sample_position s + frames_fed evs.
Proof.
  induction evs as [|e evs IH]; intros s d Hd Hno Hpos Hmax.
  { simpl. split; [assumption|lia]. }
  simpl in Hno. apply andb_prop in Hno as [He Hno].
  pose proof (frames_fed_nonneg evs) as Hnn.
  change (run (e :: evs) s) with (run evs (step s e)).
  destruct e as [rate now|q now|o|f|r|tk]; try discriminate He;
    simpl frames_fed in *.
  1-3: match goal with |- context [run _ ?s'] =>
         destruct (IH s' d) as [H1 H2];
           [exact Hd|exact Hno|exact Hpos|exact Hmax|];
         split; [exact H1|exact H2] end.
  assert (Hd' : m_decoder (step s (EvTick tk)) = Some d)
    by (simpl; now rewrite operator_decoder).
  assert (Hp : m_sample_position (step s (EvTick tk))
               = m_sample_position s
                 + (if 0 <? frames tk then frames tk else 0)).
  { simpl. rewrite operator_position. unfold processed. rewrite Hd.
    destruct (0 <? frames tk) eqn:E; [|lia].
    apply Z.ltb_lt in E. apply Int.wrap64_small. unfold Int.INT64_MAX in *. lia. }
  destruct (0 <? frames tk) eqn:E.
  - apply Z.ltb_lt in E.
    destruct (IH _ d Hd' Hno) as [H1 H2]; [lia|lia|]. split; [assumption|lia].
  - destruct (IH _ d Hd' Hno) as [H1 H2]; [lia|lia|]. split; [assumption|lia].
Qed.

(** C7.  After a reinitialisation that leaves the engine active (prepare
    or a queue-size change, at a sample rate above 1) the counter is 0; after
    any further events without a reinitialisation it equals the sum of the
    frame counts of the ticks processed since, as long as that sum fits the
    64-bit counter; and along the way it never decreases. *)
Theorem sample_position_counts_frames
    (s : state) (reinit : event) (evs : list event) :
  is_reinit reinit = true ->
  PrimFloat.leb (m_setup_rate (step s reinit)) 1 = false ->
  forallb (fun e => negb (is_reinit e)) evs = true ->
  frames_fed evs <= Int.INT64_MAX ->
  let s0 := step s reinit in
  m_sample_position s0 = 0
  /\ m_sample_position (run evs s0) = frames_fed evs
  /\ (forall pre e post, evs = pre ++ e :: post ->
        m_sample_position (run pre s0) = frames_fed pre
        /\ m_sample_position (run pre s0)
           <= m_sample_position (run (pre ++ [e]) s0)).
Proof.
  intros Hre Hrate Hno Hmax s0.
  assert (H0 : m_sample_position s0 = 0 /\ exists d, m_decoder s0 = Some d).
  { subst s0. destruct reinit as [rate now|q now|?|?|?|?]; try discriminate Hre;
      cbn [step] in *; unfold prepare, reinit_decoder in *;
      cbn [m_setup_rate set_inputs] in *.
    - destruct (PrimFloat.leb rate 1) eqn:E.
      + cbn [m_setup_rate] in Hrate. congruence.
      + cbn. eauto.
    - destruct (PrimFloat.leb (m_setup_rate s) 1) eqn:E.
      + cbn [m_setup_rate] in Hrate. congruence.
      + cbn. eauto. }
  destruct H0 as (Hz & d & Hd). split; [assumption|]. split.
  - destruct (run_counts_frames evs s0 d Hd Hno) as [_ ->]; lia.
  - intros pre e post ->.
    rewrite forallb_app in Hno. apply andb_prop in Hno as [Hpre Hpost].
    rewrite frames_fed_app in Hmax.
    pose proof (frames_fed_nonneg pre) as Hp0.
    pose proof (frames_fed_nonneg (e :: post)) as Hp1.
    assert (Hone : frames_fed [e] <= frames_fed (e :: post)).
    { pose proof (frames_fed_nonneg post).
      change (e :: post) with ([e] ++ post). rewrite frames_fed_app. lia. }
    pose proof (frames_fed_nonneg [e]) as He0.
    destruct (run_counts_frames pre s0 d Hd Hpre) as [_ ->]; [lia|lia|].
    simpl in Hpost. apply andb_prop in Hpost as [He _].
    destruct (run_counts_frames (pre ++ [e]) s0 d Hd) as [_ ->].
    + rewrite forallb_app. simpl. now rewrite Hpre, He.
    + lia.
    + rewrite frames_fed_app. lia.
    + rewrite frames_fed_app. lia.
Qed.

(** *** The engine on concrete ticks *)

(** A decoded frame at [h:m:s:f], drop-frame bit [df]. *)
Definition frame_at (h m s f df : Z) : LTCFrameExt :=
  {| ltc := {| frame_units := f mod 10; frame_tens := f / 10; dfbit := df;
               secs_units := s mod 10; secs_tens := s / 10;
               mins_units := m mod 10; mins_tens := m / 10;
               hours_units := h mod 10; hours_tens := h / 10 |};
     reverse := 0;
     volume := (-6)%float |}.

(** Prepared at 48 kHz, clock at 0. *)
Definition prepared_48k : state := prepare 48000 0 constructed.

(** A 10 ms tick, 20 ms after the start, that reads the frame 00:00:10:00. *)
Definition tick_with_frame : tick :=
  {| frames := 480; decoded := [frame_at 0 0 10 0 0];
     now_frame := 20000000; now_check := 20000100 |}.

(** The same tick reading 00:00:10:26 after an older frame. *)
Definition tick_with_frame_26 : tick :=
  {| frames := 480; decoded := [frame_at 0 0 10 25 0; frame_at 0 0 10 26 0];
     now_frame := 20000000; now_check := 20000100 |}.

(** A tick without frames, one second later. *)
Definition empty_tick_1s_later : tick :=
  {| frames := 0; decoded := []; now_frame := 1020000000;
     now_check := 1020000000 |}.

(** A tick with frames and nothing decoded, one second later. *)
Definition silent_tick_1s_later : tick :=
  {| frames := 480; decoded := []; now_frame := 1020000000;
     now_check := 1020000000 |}.

Example locked_at_ten_seconds :
  let o := outputs (operator tick_with_frame prepared_48k) in
  timecode o = 10%float /\ valid o = true /\ frame_rate o = 24%float
  /\ drop_frame o = false.
Proof. vm_compute. repeat split. Qed.

Example drop_frame_bit_wins :
  frame_rate (outputs (operator
    {| frames := 480; decoded := [frame_at 0 0 10 3 1];
       now_frame := 5; now_check := 6 |} prepared_48k)) = 29.97%float.
Proof. reflexivity. Qed.

Lemma auto_rate_detection_witness :
  framerate (inputs prepared_48k) = Auto
  /\ 0 < frames tick_with_frame_26
  /\ decoded tick_with_frame_26
     = [frame_at 0 0 10 25 0] ++ [frame_at 0 0 10 26 0]
  /\ frame_rate (outputs (operator tick_with_frame_26 prepared_48k))
     = 30%float.
Proof.
  do 3 (split; [reflexivity|]).
  destruct (auto_rate_detection prepared_48k (mkDecoder 1600 32)
              tick_with_frame_26 [frame_at 0 0 10 25 0] (frame_at 0 0 10 26 0)
              eq_refl eq_refl eq_refl eq_refl) as (_ & H & _).
  apply H; [reflexivity|discriminate].
Defined.

(** C2 as it is stated fails on a tick without frames: the engine returns
    before the timeout check, and [valid] stays true a full second after the
    last decoded frame. *)
Lemma timeout_skipped_on_empty_tick :
  let locked := operator tick_with_frame prepared_48k in
  valid (outputs locked) = true
  /\ elapsed_ms (now_check empty_tick_1s_later) (m_last_valid_time locked)
     = 1000
  /\ valid (outputs (operator empty_tick_1s_later locked)) = true.
Proof. vm_compute. repeat split. Qed.

Lemma timeout_on_processed_ticks_witness :
  let locked := operator tick_with_frame prepared_48k in
  processed silent_tick_1s_later locked = true
  /\ 500 < elapsed_ms (now_check silent_tick_1s_later)
             (m_last_valid_time locked)
  /\ valid (outputs locked) = true
  /\ valid (outputs (operator silent_tick_1s_later locked)) = false
  /\ m_last_valid_time (step locked (EvQueueSize 64 1500000000)) = 1500000000.
Proof.
  cbv zeta. split; [reflexivity|]. split; [reflexivity|].
  split; [reflexivity|].
  destruct (timeout_on_processed_ticks
              (operator tick_with_frame prepared_48k) silent_tick_1s_later)
    as (Hp & _ & Hl & _).
  destruct (Hp eq_refl) as (_ & H & _).
  split; [apply H; reflexivity|].
  rewrite (Hl (EvQueueSize 64 1500000000)). reflexivity.
Defined.

Lemma sample_position_counts_frames_witness :
  let evs := [EvTick tick_with_frame; EvOffset 5;
              EvTick empty_tick_1s_later; EvTick silent_tick_1s_later] in
  frames_fed evs = 960
  /\ m_sample_position (run evs (step constructed (EvPrepare 48000 0))) = 960.
Proof.
  cbv zeta. split; [reflexivity|].
  destruct (sample_position_counts_frames constructed (EvPrepare 48000 0)
              [EvTick tick_with_frame; EvOffset 5;
               EvTick empty_tick_1s_later; EvTick silent_tick_1s_later]
              eq_refl eq_refl eq_refl) as (_ & H & _).
  - discriminate.
  - exact H.
Defined.

(** *** Further behaviour of the decode engine *)

(** No frame is read on this event. *)
Definition no_frame (e : event) : bool :=
  match e with
  | EvTick tk => negb (got_frame tk)
  | _ => true
  end.

Lemma check_timeout_outputs now s :
  let o := outputs s in
  let o' := outputs (check_timeout now s) in
  timecode o' = timecode o /\ frame_rate o' = frame_rate o
  /\ drop_frame o' = drop_frame o /\ out_reverse o' = out_reverse o
  /\ out_volume o' = out_volume o
  /\ (valid o' = true -> valid o = true).
Proof.
  unfold check_timeout. destruct (_ >? _); cbn; repeat split; congruence.
Qed.

Lemma operator_without_frame tk s :
  got_frame tk = false ->
  let o := outputs s in
  let o' := outputs (operator tk s) in
  timecode o' = timecode o /\ frame_rate o' = frame_rate o
  /\ drop_frame o' = drop_frame o /\ out_reverse o' = out_reverse o
  /\ out_volume o' = out_volume o
  /\ (valid o' = true -> valid o = true)
  /\ m_last_frame (operator tk s) = m_last_frame s.
Proof.
  intros Hg. cbv zeta.
  destruct (processed tk s) eqn:P.
  2:{ rewrite operator_skipped by exact P. repeat split; auto. }
  unfold processed in P. destruct (m_decoder s) as [d|] eqn:Hd; [|discriminate].
  apply Z.ltb_lt in P. rewrite (operator_unfold _ _ d Hd P). cbv zeta.
  rewrite Hg.
  match goal with |- context [check_timeout ?n ?x] =>
    pose proof (check_timeout_outputs n x) as Ho; cbv zeta in Ho;
    destruct Ho as (H1 & H2 & H3 & H4 & H5 & H6) end.
  cbn [outputs] in *. repeat split; try assumption.
  unfold check_timeout, got_frame in *.
  destruct (decoded tk); [|discriminate].
  now destruct (_ >? _).
Qed.

(** X1.  With an explicit rate standard selected, a tick that reads a frame
    publishes the configured rate (24, 25, 29.97 or 30) whatever the frame
    says, while the drop-frame output still follows the drop-frame bit of
    the frame. *)
Theorem explicit_rate_overrides_detection
    (s : state) (d : LTCDecoder) (tk : tick)
    (earlier : list LTCFrameExt) (fr : LTCFrameExt) :
  framerate (inputs s) <> Auto ->
  m_decoder s = Some d ->
  0 < frames tk ->
  decoded tk = earlier ++ [fr] ->
  frame_rate (outputs (operator tk s))
  = match framerate (inputs s) with
    | FPS_24 => 24%float
    | FPS_25 => 25%float
    | FPS_2997 => 29.97%float
    | FPS_30 | Auto => 30%float
    end
  /\ drop_frame (outputs (operator tk s)) = negb (dfbit (ltc fr) =? 0).
Proof.
  intros Hexp Hd Hf Hq.
  rewrite (operator_unfold _ _ d Hd Hf). cbv zeta.
  unfold got_frame. rewrite Hq, drain_snoc.
  destruct (earlier ++ [fr]) eqn:E; [now destruct earlier|clear E].
  unfold check_timeout, publish, get_configured_fps.
  cbn [outputs frame_rate drop_frame inputs m_last_frame snd m_last_valid_time].
  destruct (_ >? _); cbn [outputs set_outputs set_valid frame_rate drop_frame];
    now destruct (framerate (inputs s)).
Qed.

(** X2.  Latest wins: a tick on which the decoder hands out several frames
    leaves the engine exactly as the same tick with only the last of them. *)
Theorem latest_frame_wins
    (s : state) (n : Z) (earlier : list LTCFrameExt) (fr : LTCFrameExt)
    (t1 t2 : Z) :
  operator {| frames := n; decoded := earlier ++ [fr];
              now_frame := t1; now_check := t2 |} s
  = operator {| frames := n; decoded := [fr];
                now_frame := t1; now_check := t2 |} s.
Proof.
  unfold operator. destruct (m_decoder s); [|reflexivity].
  cbn [frames decoded now_frame now_check].
  destruct (n <=? 0); [reflexivity|].
  now rewrite drain_snoc.
Qed.

(** X3.  Through any events on which no frame is read (ticks, control
    changes, reinitialisations) the timecode, frame-rate, drop-frame, reverse
    and volume outputs and the last frame stay as they were, and [valid] does
    not become true. *)
Theorem outputs_change_only_with_a_frame (evs : list event) (s : state) :
  forallb no_frame evs = true ->
  let o := outputs s in
  let o' := outputs (run evs s) in
  timecode o' = timecode o /\ frame_rate o' = frame_rate o
  /\ drop_frame o' = drop_frame o /\ out_reverse o' = out_reverse o
  /\ out_volume o' = out_volume o
  /\ (valid o' = true -> valid o = true)
  /\ m_last_frame (run evs s) = m_last_frame s.
Proof.
  revert s. induction evs as [|e evs IH]; intros s Hno; cbv zeta.
  { repeat split; auto. }
  simpl in Hno. apply andb_prop in Hno as [He Hno].
  change (run (e :: evs) s) with (run evs (step s e)).
  specialize (IH (step s e) Hno). cbv zeta in IH.
  destruct IH as (H1 & H2 & H3 & H4 & H5 & H6 & H7).
  assert (Hs : timecode (outputs (step s e)) = timecode (outputs s)
               /\ frame_rate (outputs (step s e)) = frame_rate (outputs s)
               /\ drop_frame (outputs (step s e)) = drop_frame (outputs s)
               /\ out_reverse (outputs (step s e)) = out_reverse (outputs s)
               /\ out_volume (outputs (step s e)) = out_volume (outputs s)
               /\ (valid (outputs (step s e)) = true -> valid (outputs s) = true)
               /\ m_last_frame (step s e) = m_last_frame s).
  { destruct e as [rate now|q now|o|f|r|tk]; cbn [step].
    - unfold prepare, reinit_decoder. cbn [m_setup_rate].
      destruct (PrimFloat.leb rate 1); cbn; repeat split; auto.
    - unfold reinit_decoder, set_inputs. cbn [m_setup_rate].
      destruct (PrimFloat.leb (m_setup_rate s) 1); cbn; repeat split; auto.
    - cbn; repeat split; auto.
    - cbn; repeat split; auto.
    - cbn; repeat split; auto.
    - apply operator_without_frame. simpl in He. now destruct (got_frame tk). }
  destruct Hs as (S1 & S2 & S3 & S4 & S5 & S6 & S7).
  repeat split; try congruence. auto.
Qed.

(** X4.  At a sample rate of 1 or less [prepare] leaves the engine without
    a decoder and touches neither the outputs nor the sample counter, and
    every tick after it leaves the whole state as it is. *)
Theorem disabled_engine_ignores_ticks
    (rate : float) (now : Z) (s : state) (ticks : list tick) :
  PrimFloat.leb rate 1 = true ->
  let s0 := prepare rate now s in
  m_decoder s0 = None
  /\ outputs s0 = outputs s
  /\ m_sample_position s0 = m_sample_position s
  /\ m_last_valid_time s0 = m_last_valid_time s
  /\ run (map EvTick ticks) s0 = s0.
Proof.
  intros Hrate s0.
  assert (Hd : m_decoder s0 = None).
  { subst s0. unfold prepare, reinit_decoder. cbn [m_setup_rate].
    now rewrite Hrate. }
  split; [exact Hd|].
  split; [subst s0; unfold prepare, reinit_decoder; cbn [m_setup_rate];
          now rewrite Hrate|].
  split; [subst s0; unfold prepare, reinit_decoder; cbn [m_setup_rate];
          now rewrite Hrate|].
  split; [subst s0; unfold prepare, reinit_decoder; cbn [m_setup_rate];
          now rewrite Hrate|].
  induction ticks as [|tk ticks IH]; [reflexivity|].
  cbn [map run fold_left step]. fold (run (map EvTick ticks)).
  rewrite operator_skipped; [exact IH|]. unfold processed. now rewrite Hd.
Qed.

(** X5.  The timeout in clock units (the steady clock counted in
    nanoseconds): on a processed tick that reads no frame a true [valid]
    survives exactly when less than 501 ms have passed since the last-valid
    time; 500.999999 ms do not time out. *)
Theorem timeout_threshold (s : state) (d : LTCDecoder) (tk : tick) :
  m_decoder s = Some d ->
  0 < frames tk ->
  decoded tk = [] ->
  valid (outputs s) = true ->
  (valid (outputs (operator tk s)) = true
   <-> now_check tk - m_last_valid_time s < 501000000).
Proof.
  intros Hd Hf Hq Hv.
  rewrite (operator_unfold _ _ d Hd Hf). cbv zeta.
  unfold got_frame. rewrite Hq.
  rewrite check_timeout_valid. cbn [m_last_valid_time outputs]. rewrite Hv.
  unfold elapsed_ms.
  set (x := now_check tk - m_last_valid_time s).
  destruct (500 <? Z.quot x 1000000) eqn:E.
  - apply Z.ltb_lt in E. split; [discriminate|]. intros Hx. exfalso.
    destruct (Z_lt_le_dec x 0) as [Hneg|Hpos].
    + pose proof (Z.quot_opp_l x 1000000 ltac:(lia)) as Hq'.
      pose proof (Z.quot_pos (- x) 1000000 ltac:(lia) ltac:(lia)). lia.
    + rewrite Z.quot_div_nonneg in E by lia.
      assert (x / 1000000 <= 500); [|lia].
      apply Z.lt_succ_r. apply Z.div_lt_upper_bound; lia.
  - apply Z.ltb_ge in E. split; [|reflexivity]. intros _.
    destruct (Z_lt_le_dec x 501000000) as [Hlt|Hge]; [exact Hlt|].
    exfalso. rewrite Z.quot_div_nonneg in E by lia.
    assert (501 <= x / 1000000); [|lia].
    apply Z.div_le_lower_bound; lia.
Qed.

Lemma explicit_rate_overrides_detection_witness :
  let s := step prepared_48k (EvFramerate FPS_30) in
  let tk := {| frames := 480; decoded := [frame_at 0 0 10 3 1];
               now_frame := 5; now_check := 6 |} in
  framerate (inputs s) <> Auto
  /\ frame_rate (outputs (operator tk s)) = 30%float
  /\ drop_frame (outputs (operator tk s)) = true.
Proof.
  cbv zeta. split; [discriminate|].
  apply (explicit_rate_overrides_detection
           (step prepared_48k (EvFramerate FPS_30)) (mkDecoder 1600 32)
           {| frames := 480; decoded := [frame_at 0 0 10 3 1];
              now_frame := 5; now_check := 6 |} [] (frame_at 0 0 10 3 1));
    [discriminate|reflexivity|reflexivity|reflexivity].
Defined.

Lemma outputs_change_only_with_a_frame_witness :
  let locked := operator tick_with_frame prepared_48k in
  let evs := [EvTick silent_tick_1s_later; EvPrepare 44100 1030000000;
              EvTick empty_tick_1s_later] in
  forallb no_frame evs = true
  /\ timecode (outputs (run evs locked)) = 10%float
  /\ valid (outputs (run evs locked)) = false.
Proof.
  cbv zeta. split; [reflexivity|].
  pose proof (outputs_change_only_with_a_frame
                [EvTick silent_tick_1s_later; EvPrepare 44100 1030000000;
                 EvTick empty_tick_1s_later]
                (operator tick_with_frame prepared_48k) eq_refl) as H.
  cbv zeta in H. destruct H as (H1 & _).
  split; [rewrite H1; reflexivity|reflexivity].
Defined.

Lemma disabled_engine_ignores_ticks_witness :
  let locked := operator tick_with_frame prepared_48k in
  m_decoder (prepare 1 7 locked) = None
  /\ run (map EvTick [tick_with_frame_26; silent_tick_1s_later])
       (prepare 1 7 locked)
     = prepare 1 7 locked
  /\ valid (outputs (prepare 1 7 locked)) = true.
Proof.
  cbv zeta.
  destruct (disabled_engine_ignores_ticks 1 7
              (operator tick_with_frame prepared_48k)
              [tick_with_frame_26; silent_tick_1s_later] eq_refl)
    as (H1 & _ & _ & _ & H5).
  split; [exact H1|]. split; [exact H5|reflexivity].
Defined.

Lemma timeout_threshold_witness :
  let locked := operator tick_with_frame prepared_48k in
  let tk := {| frames := 480; decoded := []; now_frame := 0;
               now_check := 20000000 + 500999999 |} in
  now_check tk - m_last_valid_time locked < 501000000
  /\ valid (outputs (operator tk locked)) = true.
Proof.
  cbv zeta. split; [reflexivity|].
  apply (timeout_threshold (operator tick_with_frame prepared_48k)
           (mkDecoder 1600 32)
           {| frames := 480; decoded := []; now_frame := 0;
              now_check := 20000000 + 500999999 |}
           eq_refl eq_refl eq_refl eq_refl).
  reflexivity.
Defined.

End LTCInput.

(** ** The encode engine: [ao::LTCGenerator] *)

Module LTCGenerator.
Import Ltc.

(** libltc's encoder, as far as the engine uses it.  [ltc_encoder_get_bufferptr]
    hands out the samples encoded since the last flush. *)
Class LTCEncoderOps := {
  LTCEncoder : Type;
  ltc_encoder_create :
    float -> float -> LTC_TV_STANDARD -> Z -> LTCEncoder;
  ltc_encoder_reinit :
    LTCEncoder -> float -> float -> LTC_TV_STANDARD -> Z -> LTCEncoder;
  ltc_encoder_set_timecode : LTCEncoder -> SMPTETimecode -> LTCEncoder;
  ltc_encoder_get_buffersize : LTCEncoder -> Z;
  ltc_encoder_encode_byte : LTCEncoder -> Z -> float -> LTCEncoder;
  ltc_encoder_inc_timecode : LTCEncoder -> LTCEncoder;
  ltc_encoder_get_bufferptr : LTCEncoder -> bool -> list Z * LTCEncoder
}.

(** The calls the engine makes on its encoder, kept in order as a history
    beside the object's members. *)
Inductive call :=
  | SetTimecode (st : SMPTETimecode)
  | EncodeByte (byte : Z) (speed : float)
  | IncTimecode.

Record tick := mkTick {
  frames : Z;
  tempo : float;
  start_in_flicks : Z
}.

(** ** Single-precision arithmetic of the sample mapping *)

Definition f32 (z : Z) : spec_float := binary_normalize 24 128 z 0 false.

(** [(data / 127.f) - 1.f], stored in a double. *)
Definition sample_to_audio (data : Z) : float :=
  SF2Prim (SFsub 24 128 (SFdiv 24 128 (f32 data) (f32 127)) (f32 1)).

(** ** [boost::circular_buffer<uint8_t>] *)

Definition push_back (capacity : Z) (buf : list Z) (x : Z) : list Z :=
  if capacity <=? 0 then buf
  else if Z.of_nat (length buf) <? capacity then buf ++ [x]
  else tail buf ++ [x].

(** ** The initial timecode of [update()] *)

(** The total of seconds split with [std::div], whose quotient rounds
    toward zero, and stored in the [uint8_t] fields of the timecode. *)
Definition decompose (offset : Z) : SMPTETimecode :=
  let days := Int.wrap32 (Z.quot offset 86400) in
  let offset := Int.wrap64 (offset - Int.wrap32 (days * 86400)) in
  let hours := Int.wrap32 (Z.quot offset 3600) in
  let offset := Int.wrap64 (offset - Int.wrap32 (hours * 3600)) in
  let minutes := Int.wrap32 (Z.quot offset 60) in
  let offset := Int.wrap64 (offset - Int.wrap32 (minutes * 60)) in
  let seconds := Int.wrap32 offset in
  {| hours := Int.to_uint8 hours;
     mins := Int.to_uint8 minutes;
     secs := Int.to_uint8 seconds;
     frame := 0 |}.

Definition initial_timecode (current_flicks smpte_offset : Z) : SMPTETimecode :=
  let cur_seconds := (Double.of_Z current_flicks / 705600000)%float in
  decompose
    (Double.to_signed 64 (cur_seconds + Double.of_Z smpte_offset)%float).

(** From zero on, the split gives the time of the day. *)
Lemma decompose_of_day t :
  0 <= t < 2 ^ 31 ->
  decompose t
  = {| hours := t mod 86400 / 3600; mins := t mod 3600 / 60;
       secs := t mod 60; frame := 0 |}.
Proof.
  intros Ht. unfold decompose.
  assert (Hd : Z.quot t 86400 = t / 86400) by (apply Z.quot_div_nonneg; lia).
  assert (H1 : Int.wrap32 (t / 86400) = t / 86400)
    by (apply Int.wrap32_small; Z.div_mod_to_equations; lia).
  rewrite Hd, H1.
  assert (H2 : Int.wrap32 (t / 86400 * 86400) = t / 86400 * 86400)
    by (apply Int.wrap32_small; Z.div_mod_to_equations; lia).
  rewrite H2.
  assert (H3 : Int.wrap64 (t - t / 86400 * 86400) = t mod 86400).
  { rewrite Int.wrap64_small; unfold Int.INT64_MAX;
      Z.div_mod_to_equations; lia. }
  rewrite H3. set (a := t mod 86400).
  assert (Ha : 0 <= a < 86400) by (apply Z.mod_pos_bound; lia).
  assert (Hq : Z.quot a 3600 = a / 3600) by (apply Z.quot_div_nonneg; lia).
  rewrite Hq, (Int.wrap32_small (a / 3600)) by (Z.div_mod_to_equations; lia).
  rewrite (Int.wrap32_small (a / 3600 * 3600)) by (Z.div_mod_to_equations; lia).
  assert (H4 : Int.wrap64 (a - a / 3600 * 3600) = t mod 3600).
  { rewrite Int.wrap64_small; unfold Int.INT64_MAX; subst a;
      Z.div_mod_to_equations; lia. }
  rewrite H4. set (b := t mod 3600).
  assert (Hb : 0 <= b < 3600) by (apply Z.mod_pos_bound; lia).
  assert (Hq' : Z.quot b 60 = b / 60) by (apply Z.quot_div_nonneg; lia).
  rewrite Hq', (Int.wrap32_small (b / 60)) by (Z.div_mod_to_equations; lia).
  rewrite (Int.wrap32_small (b / 60 * 60)) by (Z.div_mod_to_equations; lia).
  assert (H5 : Int.wrap64 (b - b / 60 * 60) = t mod 60).
  { rewrite Int.wrap64_small; unfold Int.INT64_MAX; subst b;
      Z.div_mod_to_equations; lia. }
  rewrite H5, (Int.wrap32_small (t mod 60)) by (Z.div_mod_to_equations; lia).
  unfold Int.to_uint8. f_equal; apply Z.mod_small; Z.div_mod_to_equations; lia.
Qed.

Definition fps_of (rate : LTC_TV_STANDARD) : float :=
  match rate with
  | LTC_TV_525_60 | LTC_TV_1125_60 => 30%float
  | LTC_TV_625_50 => 25%float
  | LTC_TV_FILM_24 => 24%float
  end.

Section Engine.
Context {codec : LTCEncoderOps}.

Record state := mkState {
  in_offset : Z;
  in_rate : LTC_TV_STANDARD;
  out_audio : list float;
  setup_rate : float;
  m_encoder : option LTCEncoder;
  m_current_byte : Z;
  m_buffer : list Z;
  m_buffer_capacity : Z;
  m_current_flicks : Z;
  calls : list call
}.

Definition constructed : state :=
  {| in_offset := 0; in_rate := LTC_TV_525_60; out_audio := [];
     setup_rate := 0; m_encoder := None; m_current_byte := 0;
     m_buffer := []; m_buffer_capacity := 0; m_current_flicks := 0;
     calls := [] |}.

Definition update (s : state) : state :=
  let fps := fps_of (in_rate s) in
  let e0 :=
    match m_encoder s with
    | None => ltc_encoder_create (setup_rate s) fps (in_rate s) 0
    | Some e => ltc_encoder_reinit e (setup_rate s) fps (in_rate s) 0
    end in
  let st := initial_timecode (m_current_flicks s) (in_offset s) in
  let e1 := ltc_encoder_set_timecode e0 st in
  {| in_offset := in_offset s; in_rate := in_rate s;
     out_audio := out_audio s; setup_rate := setup_rate s;
     m_encoder := Some e1;
     m_current_byte := m_current_byte s;
     m_buffer := [];
     m_buffer_capacity := ltc_encoder_get_buffersize e1 * 16;
     m_current_flicks := m_current_flicks s;
     calls := calls s ++ [SetTimecode st] |}.

Definition prepare (rate : float) (s : state) : state :=
  update
    {| in_offset := in_offset s; in_rate := in_rate s;
       out_audio := out_audio s; setup_rate := rate;
       m_encoder := m_encoder s; m_current_byte := m_current_byte s;
       m_buffer := m_buffer s; m_buffer_capacity := m_buffer_capacity s;
       m_current_flicks := m_current_flicks s; calls := calls s |}.

Definition set_offset (o : Z) (s : state) : state :=
  update
    {| in_offset := o; in_rate := in_rate s;
       out_audio := out_audio s; setup_rate := setup_rate s;
       m_encoder := m_encoder s; m_current_byte := m_current_byte s;
       m_buffer := m_buffer s; m_buffer_capacity := m_buffer_capacity s;
       m_current_flicks := m_current_flicks s; calls := calls s |}.

Definition set_rate (r : LTC_TV_STANDARD) (s : state) : state :=
  update
    {| in_offset := in_offset s; in_rate := r;
       out_audio := out_audio s; setup_rate := setup_rate s;
       m_encoder := m_encoder s; m_current_byte := m_current_byte s;
       m_buffer := m_buffer s; m_buffer_capacity := m_buffer_capacity s;
       m_current_flicks := m_current_flicks s; calls := calls s |}.

(** One turn of the [while(m_buffer.empty())] loop. *)
Definition encode_step (tempo : float) (e : LTCEncoder) (s : state) : state :=
  let speed := (120 / tempo)%float in
  let e1 := ltc_encoder_encode_byte e (m_current_byte s) speed in
  let wraps := m_current_byte s + 1 =? 10 in
  let e2 := if wraps then ltc_encoder_inc_timecode e1 else e1 in
  let '(buf, e3) := ltc_encoder_get_bufferptr e2 true in
  {| in_offset := in_offset s; in_rate := in_rate s;
     out_audio := out_audio s; setup_rate := setup_rate s;
     m_encoder := Some e3;
     m_current_byte := if wraps then 0 else m_current_byte s + 1;
     m_buffer := fold_left (push_back (m_buffer_capacity s)) buf (m_buffer s);
     m_buffer_capacity := m_buffer_capacity s;
     m_current_flicks := m_current_flicks s;
     calls := calls s ++ EncodeByte (m_current_byte s) speed
                :: (if wraps then [IncTimecode] else []) |}.

(** The [while] loop, run for at most [fuel] turns; it stops early with the
    buffer still empty only when the fuel is used up (or the encoder was
    never created). *)
Fixpoint fill (fuel : nat) (tempo : float) (s : state) : state :=
  match m_buffer s, m_encoder s, fuel with
  | [], Some e, S fuel' => fill fuel' tempo (encode_step tempo e s)
  | _, _, _ => s
  end.

(** The [for] loop over the tick's frames, from index [frame] on, [n]
    frames to go; [false] when a [while] loop ran out of fuel. *)
Fixpoint emit (fuel : nat) (tempo : float) (n : nat) (frame : Z) (s : state)
    : state * bool :=
  match n with
  | O => (s, true)
  | S n' =>
      let s1 := fill fuel tempo s in
      match m_buffer s1 with
      | [] => (s1, false)
      | data :: rest =>
          emit fuel tempo n' (frame + 1)
            {| in_offset := in_offset s1; in_rate := in_rate s1;
               out_audio :=
                 <[Z.to_nat frame := sample_to_audio data]> (out_audio s1);
               setup_rate := setup_rate s1; m_encoder := m_encoder s1;
               m_current_byte := m_current_byte s1;
               m_buffer := rest;
               m_buffer_capacity := m_buffer_capacity s1;
               m_current_flicks := m_current_flicks s1;
               calls := calls s1 |}
      end
  end.

(** [operator()(halp::tick_flicks tk)]; the host's audio buffer of the tick
    starts out silent. *)
Definition operator (fuel : nat) (tk : tick) (s : state) : state * bool :=
  emit fuel (tempo tk) (Z.to_nat (frames tk)) 0
    {| in_offset := in_offset s; in_rate := in_rate s;
       out_audio := replicate (Z.to_nat (frames tk)) 0%float;
       setup_rate := setup_rate s; m_encoder := m_encoder s;
       m_current_byte := m_current_byte s;
       m_buffer := m_buffer s;
       m_buffer_capacity := m_buffer_capacity s;
       m_current_flicks := start_in_flicks tk;
       calls := calls s |}.

Inductive event :=
  | EvPrepare (rate : float)
  | EvOffset (o : Z)
  | EvRate (r : LTC_TV_STANDARD)
  | EvTick (tk : tick).

Definition step (fuel : nat) (s : state) (e : event) : state * bool :=
  match e with
  | EvPrepare rate => (prepare rate s, true)
  | EvOffset o => (set_offset o s, true)
  | EvRate r => (set_rate r s, true)
  | EvTick tk => operator fuel tk s
  end.

(** The events in order; the run ends at a tick that does not return. *)
Fixpoint run (fuel : nat) (evs : list event) (s : state) : state * bool :=
  match evs with
  | [] => (s, true)
  | e :: evs' =>
      let '(s', ok) := step fuel s e in
      if ok then run fuel evs' s' else (s', false)
  end.

(** ** Reading the history *)

Definition byte_args (tr : list call) : list Z :=
  flat_map (fun c => match c with EncodeByte b _ => [b] | _ => [] end) tr.

Definition speeds (tr : list call) : list float :=
  flat_map (fun c => match c with EncodeByte _ sp => [sp] | _ => [] end) tr.

Definition encoded (tr : list call) : Z := Z.of_nat (length (byte_args tr)).

Definition advanced (tr : list call) : Z :=
  Z.of_nat
    (length (flat_map (fun c => match c with IncTimecode => [c] | _ => [] end) tr)).

Definition timecodes_set (tr : list call) : list SMPTETimecode :=
  flat_map (fun c => match c with SetTimecode st => [st] | _ => [] end) tr.

(** The byte indices 0..9 in rounds, [n] of them. *)
Definition byte_cycle (n : nat) : list Z :=
  map (fun k => Z.of_nat k mod 10) (seq 0 n).

(** What holds of the byte index and the history between any two turns of
    the encoding loop. *)
Definition cadence (s : state) : Prop :=
  0 <= m_current_byte s <= 9
  /\ m_current_byte s = encoded (calls s) mod 10
  /\ advanced (calls s) = encoded (calls s) / 10
  /\ byte_args (calls s) = byte_cycle (length (byte_args (calls s))).

(** *** The history grows by whole calls *)

Lemma byte_args_app tr1 tr2 :
  byte_args (tr1 ++ tr2) = byte_args tr1 ++ byte_args tr2.
Proof. apply flat_map_app. Qed.

Lemma speeds_app tr1 tr2 : speeds (tr1 ++ tr2) = speeds tr1 ++ speeds tr2.
Proof. apply flat_map_app. Qed.

Lemma advanced_app tr1 tr2 : advanced (tr1 ++ tr2) = advanced tr1 + advanced tr2.
Proof.
  unfold advanced. rewrite flat_map_app, length_app. lia.
Qed.

Lemma encoded_app tr1 tr2 : encoded (tr1 ++ tr2) = encoded tr1 + encoded tr2.
Proof.
  unfold encoded. rewrite byte_args_app, length_app. lia.
Qed.

Lemma byte_cycle_S n : byte_cycle (S n) = byte_cycle n ++ [Z.of_nat n mod 10].
Proof.
  unfold byte_cycle. now rewrite seq_S, map_app.
Qed.

Lemma encode_step_calls tempo e s :
  calls (encode_step tempo e s)
  = calls s ++ EncodeByte (m_current_byte s) (120 / tempo)%float
      :: (if m_current_byte s + 1 =? 10 then [IncTimecode] else []).
Proof.
  unfold encode_step.
  now destruct (ltc_encoder_get_bufferptr _ true).
Qed.

Lemma encode_step_byte tempo e s :
  m_current_byte (encode_step tempo e s)
  = if m_current_byte s + 1 =? 10 then 0 else m_current_byte s + 1.
Proof.
  unfold encode_step.
  now destruct (ltc_encoder_get_bufferptr _ true).
Qed.

(** *** The cadence is kept by every step of the engine *)

Lemma cadence_constructed : cadence constructed.
Proof. unfold cadence. simpl. repeat split; lia. Qed.

Lemma cadence_encode_step tempo e s :
  cadence s -> cadence (encode_step tempo e s).
Proof.
  intros (Hr & Hb & Ha & Hc). unfold cadence.
  rewrite encode_step_calls, encode_step_byte.
  rewrite encoded_app, advanced_app, byte_args_app.
  set (n := encoded (calls s)) in *.
  assert (Hn : 0 <= n) by (unfold n, encoded; lia).
  assert (He1 : encoded (EncodeByte (m_current_byte s) (120 / tempo)%float
                  :: (if m_current_byte s + 1 =? 10 then [IncTimecode] else []))
                = 1) by now destruct (_ =? 10).
  assert (Hb1 : byte_args (EncodeByte (m_current_byte s) (120 / tempo)%float
                  :: (if m_current_byte s + 1 =? 10 then [IncTimecode] else []))
                = [m_current_byte s]) by now destruct (_ =? 10).
  rewrite He1, Hb1, length_app. cbn [length].
  replace (length (byte_args (calls s)) + 1)%nat
    with (S (length (byte_args (calls s)))) by lia.
  rewrite byte_cycle_S, <- Hc.
  fold (encoded (calls s)). fold n. rewrite <- Hb.
  destruct (m_current_byte s + 1 =? 10) eqn:E.
  - apply Z.eqb_eq in E.
    assert (advanced [EncodeByte (m_current_byte s) (120 / tempo)%float;
                      IncTimecode] = 1) as -> by reflexivity.
    rewrite Ha. repeat split; try lia; Z.div_mod_to_equations; lia.
  - apply Z.eqb_neq in E.
    assert (advanced [EncodeByte (m_current_byte s) (120 / tempo)%float] = 0)
      as -> by reflexivity.
    rewrite Ha. repeat split; try lia; Z.div_mod_to_equations; lia.
Qed.

Lemma cadence_same s s' :
  m_current_byte s' = m_current_byte s ->
  byte_args (calls s') = byte_args (calls s) ->
  advanced (calls s') = advanced (calls s) ->
  cadence s -> cadence s'.
Proof.
  unfold cadence, encoded. intros -> -> ->. tauto.
Qed.

Lemma cadence_update s : cadence s -> cadence (update s).
Proof.
  apply cadence_same; cbn [update calls m_current_byte].
  - reflexivity.
  - rewrite byte_args_app. apply app_nil_r.
  - rewrite advanced_app.
    match goal with |- _ + advanced [SetTimecode ?st] = _ =>
      change (advanced [SetTimecode st]) with 0 end.
    lia.
Qed.

Lemma cadence_fill fuel tempo : forall s, cadence s -> cadence (fill fuel tempo s).
Proof.
  induction fuel as [|fuel IH]; intros s Hs; simpl.
  - now destruct (m_buffer s), (m_encoder s).
  - destruct (m_buffer s); [|assumption].
    destruct (m_encoder s) as [e|]; [|assumption].
    apply IH. now apply cadence_encode_step.
Qed.

Lemma cadence_emit fuel tempo n : forall frame s,
  cadence s -> cadence (fst (emit fuel tempo n frame s)).
Proof.
  induction n as [|n IH]; intros frame s Hs; simpl; [assumption|].
  pose proof (cadence_fill fuel tempo s Hs) as Hf.
  destruct (m_buffer (fill fuel tempo s)) as [|data rest]; [assumption|].
  apply IH. revert Hf. now apply cadence_same.
Qed.

Lemma cadence_step fuel s e : cadence s -> cadence (fst (step fuel s e)).
Proof.
  intros Hs. destruct e as [rate|o|r|tk]; simpl.
  - apply cadence_update. revert Hs. now apply cadence_same.
  - apply cadence_update. revert Hs. now apply cadence_same.
  - apply cadence_update. revert Hs. now apply cadence_same.
  - apply cadence_emit. revert Hs. now apply cadence_same.
Qed.

Lemma cadence_run fuel evs : forall s,
  cadence s -> cadence (fst (run fuel evs s)).
Proof.
  induction evs as [|e evs IH]; intros s Hs; simpl; [assumption|].
  pose proof (cadence_step fuel s e Hs) as He.
  destruct (step fuel s e) as [s' ok]. destruct ok; [now apply IH|assumption].
Qed.

(** *** Every byte of a tick is encoded at the tick's speed *)

Definition encoded_since (s s' : state) : nat :=
  (length (byte_args (calls s')) - length (byte_args (calls s)))%nat.

Lemma speeds_length tr : length (speeds tr) = length (byte_args tr).
Proof.
  induction tr as [|[st|b sp|] tr IH]; simpl; congruence.
Qed.

Lemma speeds_fill fuel tempo : forall s,
  exists k, speeds (calls (fill fuel tempo s))
            = speeds (calls s) ++ replicate k (120 / tempo)%float.
Proof.
  induction fuel as [|fuel IH]; intros s; simpl.
  - exists O. destruct (m_buffer s), (m_encoder s); simpl; now rewrite app_nil_r.
  - destruct (m_buffer s); [|exists O; simpl; now rewrite app_nil_r].
    destruct (m_encoder s) as [e|]; [|exists O; simpl; now rewrite app_nil_r].
    destruct (IH (encode_step tempo e s)) as [k Hk].
    exists (S k). rewrite Hk, encode_step_calls, speeds_app.
    rewrite <- app_assoc. f_equal.
    now destruct (_ =? 10).
Qed.

Lemma speeds_emit fuel tempo n : forall frame s,
  exists k, speeds (calls (fst (emit fuel tempo n frame s)))
            = speeds (calls s) ++ replicate k (120 / tempo)%float.
Proof.
  induction n as [|n IH]; intros frame s; simpl.
  - exists O. simpl. now rewrite app_nil_r.
  - destruct (speeds_fill fuel tempo s) as [k Hk].
    destruct (m_buffer (fill fuel tempo s)) as [|data rest]; [now exists k|].
    match goal with |- context [emit fuel tempo n ?f ?x] =>
      destruct (IH f x) as [k' Hk'] end.
    exists (k + k')%nat. rewrite Hk'. cbn [calls]. rewrite Hk.
    now rewrite <- app_assoc, replicate_add.
Qed.

Lemma speeds_operator fuel tk s :
  speeds (calls (fst (operator fuel tk s)))
  = speeds (calls s)
    ++ replicate (encoded_since s (fst (operator fuel tk s)))
         (120 / tempo tk)%float.
Proof.
  unfold operator.
  match goal with |- context [emit fuel ?t ?n ?f ?x] =>
    destruct (speeds_emit fuel t n f x) as [k Hk];
    set (s' := fst (emit fuel t n f x)) in * end.
  cbn [calls] in Hk. rewrite Hk. f_equal. f_equal.
  unfold encoded_since. rewrite <- !speeds_length, Hk, length_app, length_replicate.
  lia.
Qed.

(** *** The encoding loop returns when the encoder produces samples *)

(** An encoder whose buffer has room and that hands out at least one sample
    for every encoded byte. *)
Definition productive : Prop :=
  (forall e, 0 < ltc_encoder_get_buffersize e)
  /\ (forall e b sp,
        fst (ltc_encoder_get_bufferptr (ltc_encoder_encode_byte e b sp) true)
        <> [])
  /\ (forall e b sp,
        fst (ltc_encoder_get_bufferptr
               (ltc_encoder_inc_timecode (ltc_encoder_encode_byte e b sp)) true)
        <> []).

Definition ready (s : state) : Prop :=
  m_encoder s <> None /\ 0 < m_buffer_capacity s.

Lemma push_back_nonempty cap buf x : 0 < cap -> push_back cap buf x <> [].
Proof.
  intros Hc. unfold push_back.
  destruct (cap <=? 0) eqn:E; [apply Z.leb_le in E; lia|].
  destruct (_ <? cap); now destruct buf; try destruct (tail _).
Qed.

Lemma fold_push_back_nonempty cap samples buf :
  0 < cap -> samples <> [] -> fold_left (push_back cap) samples buf <> [].
Proof.
  intros Hc Hs.
  destruct (exists_last Hs) as (front & x & ->).
  rewrite fold_left_app. simpl. now apply push_back_nonempty.
Qed.

Lemma encode_step_ready tempo e s :
  productive -> ready s ->
  ready (encode_step tempo e s) /\ m_buffer (encode_step tempo e s) <> [].
Proof.
  intros (_ & Hp1 & Hp2) [_ Hc]. unfold encode_step.
  destruct (m_current_byte s + 1 =? 10).
  - pose proof (Hp2 e (m_current_byte s) (120 / tempo)%float) as H.
    destruct (ltc_encoder_get_bufferptr _ true) as [buf e3]. simpl in *.
    repeat split; try easy. now apply fold_push_back_nonempty.
  - pose proof (Hp1 e (m_current_byte s) (120 / tempo)%float) as H.
    destruct (ltc_encoder_get_bufferptr _ true) as [buf e3]. simpl in *.
    repeat split; try easy. now apply fold_push_back_nonempty.
Qed.

Lemma fill_full fuel tempo s : m_buffer s <> [] -> fill fuel tempo s = s.
Proof. destruct fuel, (m_buffer s) eqn:E; simpl; rewrite ?E; congruence. Qed.

Lemma fill_ready fuel tempo s :
  productive -> ready s ->
  ready (fill (S fuel) tempo s) /\ m_buffer (fill (S fuel) tempo s) <> [].
Proof.
  intros Hp Hr. simpl.
  destruct (m_buffer s) eqn:Hb; [|rewrite Hb; easy].
  destruct (m_encoder s) as [e|] eqn:He; [|now destruct Hr].
  destruct (encode_step_ready tempo e s Hp Hr) as [Hr' Hb'].
  now rewrite fill_full.
Qed.

Lemma emit_returns fuel tempo n : forall frame s,
  productive -> ready s ->
  snd (emit (S fuel) tempo n frame s) = true
  /\ ready (fst (emit (S fuel) tempo n frame s)).
Proof.
  induction n as [|n IH]; intros frame s Hp Hr; [easy|].
  cbn [emit]. destruct (fill_ready fuel tempo s Hp Hr) as [Hr' Hb'].
  destruct (m_buffer (fill (S fuel) tempo s)) as [|data rest]; [easy|].
  apply IH; [assumption|]. exact Hr'.
Qed.

Lemma update_ready s : productive -> ready (update s).
Proof.
  intros (Hsz & _). unfold ready, update; cbn [m_encoder m_buffer_capacity].
  split; [discriminate|]. specialize (Hsz
    (ltc_encoder_set_timecode
       match m_encoder s with
       | Some e => ltc_encoder_reinit e (setup_rate s) (fps_of (in_rate s)) (in_rate s) 0
       | None => ltc_encoder_create (setup_rate s) (fps_of (in_rate s)) (in_rate s) 0
       end (initial_timecode (m_current_flicks s) (in_offset s)))). lia.
Qed.

Lemma step_returns fuel s e :
  productive -> ready s ->
  snd (step (S fuel) s e) = true /\ ready (fst (step (S fuel) s e)).
Proof.
  intros Hp Hr. destruct e as [rate|o|r|tk]; cbn [step fst snd];
    try (split; [reflexivity|now apply update_ready]).
  now apply emit_returns.
Qed.

Lemma run_returns fuel evs : forall s,
  productive -> ready s -> snd (run (S fuel) evs s) = true.
Proof.
  induction evs as [|e evs IH]; intros s Hp Hr; [reflexivity|].
  cbn [run]. destruct (step_returns fuel s e Hp Hr) as [Hok Hr'].
  destruct (step (S fuel) s e) as [s' ok]. simpl in *. subst ok.
  now apply IH.
Qed.

(** *** The frame cadence *)

(** C6, as the code has it.  Through every sequence of preparations,
    reconfigurations and ticks, at any tempo, and at whatever turn the
    encoding loop stands: the byte index is between 0 and 9, the bytes were
    encoded with the indices 0, 1, ..., 9, 0, 1, ... in this order, and the
    timecode counter was advanced once for every ten bytes encoded.  The
    tempo reaches the encoder only as the speed factor of each encoded byte,
    which is 120 / tempo (the nominal tempo over the tick's tempo). *)
Theorem encode_cadence (fuel : nat) (evs : list event) :
  cadence (fst (run fuel evs constructed))
  /\ (forall tk s,
        speeds (calls (fst (operator fuel tk s)))
        = speeds (calls s)
          ++ replicate (encoded_since s (fst (operator fuel tk s)))
               (120 / tempo tk)%float).
Proof.
  split.
  - apply cadence_run, cadence_constructed.
  - intros tk s. apply speeds_operator.
Qed.

(** C9 at a negative offset.  [update()] divides rounding toward zero, so
    a total of -1 second has no day, hour or minute and -1 for seconds, which
    the conversion to [uint8_t] turns into 255; a total of minus one hour
    gives the hour 255. *)
Theorem negative_offset_timecode :
  initial_timecode 0 (-1) = {| hours := 0; mins := 0; secs := 255; frame := 0 |}
  /\ initial_timecode 0 (-3600)
     = {| hours := 255; mins := 0; secs := 0; frame := 0 |}
  /\ (forall rate,
        timecodes_set (calls (set_offset (-1) (prepare rate constructed)))
        = [ {| hours := 0; mins := 0; secs := 0; frame := 0 |};
            {| hours := 0; mins := 0; secs := 255; frame := 0 |} ]).
Proof.
  split; [vm_compute; reflexivity|].
  split; [vm_compute; reflexivity|].
  intros rate. unfold set_offset, prepare, update; cbn [calls m_current_flicks in_offset].
  unfold constructed; cbn [calls m_current_flicks in_offset].
  vm_compute. reflexivity.
Qed.

End Engine.

(** *** A stand-in encoder to run the engine on concrete ticks

    Every byte is eight bits of four samples each at speed 1, and the speed
    factor scales the samples of a bit; at least one sample per bit. *)

Record square := mkSquare {
  sq_time : SMPTETimecode;
  sq_pending : list Z
}.

Definition square_encode (e : square) (byte : Z) (speed : float) : square :=
  let per_bit := Z.max 1 (Double.to_signed 32 (4 * PrimFloat.abs speed)%float) in
  {| sq_time := sq_time e;
     sq_pending := sq_pending e ++ replicate (Z.to_nat (8 * per_bit)) (38 + 18 * byte) |}.

Definition square_inc (e : square) : square :=
  {| sq_time := {| hours := hours (sq_time e); mins := mins (sq_time e);
                   secs := secs (sq_time e); frame := frame (sq_time e) + 1 |};
     sq_pending := sq_pending e |}.

#[local] Instance square_encoder : LTCEncoderOps := {
  LTCEncoder := square;
  ltc_encoder_create := fun _ _ _ _ => mkSquare (mkSMPTE 0 0 0 0) [];
  ltc_encoder_reinit := fun _ _ _ _ _ => mkSquare (mkSMPTE 0 0 0 0) [];
  ltc_encoder_set_timecode := fun e st => mkSquare st (sq_pending e);
  ltc_encoder_get_buffersize := fun _ => 1920;
  ltc_encoder_encode_byte := square_encode;
  ltc_encoder_inc_timecode := square_inc;
  ltc_encoder_get_bufferptr := fun e flush =>
    (sq_pending e, if flush then mkSquare (sq_time e) [] else e)
}.

Lemma square_productive : productive.
Proof.
  assert (H : forall k x, 0 < k -> replicate (Z.to_nat (8 * k)) x <> ([] : list Z)).
  { intros k x Hk. destruct (Z.to_nat (8 * k)) eqn:E; [lia|discriminate]. }
  split; [intros e; reflexivity|].
  split; intros e b sp; cbn; unfold square_encode; cbn [sq_pending].
  - intros Habs. apply app_eq_nil in Habs as [_ Habs]. revert Habs. apply H. lia.
  - intros Habs. apply app_eq_nil in Habs as [_ Habs]. revert Habs. apply H. lia.
Qed.

(** Forty samples at tempo 240: one byte and a half, encoded at half the
    nominal bit duration. *)
Definition tick_at_240 : tick :=
  {| frames := 40; tempo := 240; start_in_flicks := 0 |}.

Definition tick_at_60 : tick :=
  {| frames := 640; tempo := 60; start_in_flicks := 0 |}.

Example offsets_from_zero_on :
  initial_timecode 0 90061 = {| hours := 1; mins := 1; secs := 1; frame := 0 |}
  /\ initial_timecode (20 * 705600000) (-10)
     = {| hours := 0; mins := 0; secs := 10; frame := 0 |}.
Proof. vm_compute. repeat split. Qed.

Example square_run_returns fuel evs rate :
  snd (run (S fuel) evs (prepare rate constructed)) = true.
Proof.
  apply run_returns; [apply square_productive|].
  apply update_ready, square_productive.
Qed.

Example twelve_bytes_one_frame :
  let s := fst (run 1 [EvPrepare 48000; EvTick tick_at_60; EvTick tick_at_240]
                  constructed) in
  byte_args (calls s) = [0; 1; 2; 3; 4; 5; 6; 7; 8; 9; 0; 1; 2]
  /\ advanced (calls s) = 1 /\ m_current_byte s = 3.
Proof. vm_compute. repeat split. Qed.

(** C6 as it is stated fails on the factor: at tempo 240 the bytes are
    encoded with the factor 120 / 240 = 0.5, not 240 / 120 = 2. *)
Lemma speed_factor_at_tempo_240 :
  speeds (calls (fst (operator 1 tick_at_240 (prepare 48000 constructed))))
  = [0.5%float; 0.5%float; 0.5%float]
  /\ (tempo tick_at_240 / 120)%float = 2%float.
Proof. vm_compute. repeat split. Qed.

(** *** Further behaviour of the encode engine *)

(** The sample values 0..254 of libltc's unsigned 8-bit audio. *)
Definition sample_values : list Z := map Z.of_nat (seq 0 255).

Definition audio_in_range (data : Z) : bool :=
  PrimFloat.leb (-1) (sample_to_audio data)
  && PrimFloat.leb (sample_to_audio data) 1.

Lemma sample_values_in_range : forallb audio_in_range sample_values = true.
Proof. vm_compute. reflexivity. Qed.

(** X6.  The sample mapping [(data / 127.f) - 1.f] sends every sample value
    from 0 to 254 into the audio range [-1, 1], with 0, 127 and 254 going to
    -1, 0 and 1; the value 255 comes out above 1. *)
Theorem sample_to_audio_range (data : Z) :
  0 <= data <= 254 ->
  PrimFloat.leb (-1) (sample_to_audio data) = true
  /\ PrimFloat.leb (sample_to_audio data) 1 = true
  /\ sample_to_audio 0 = (-1)%float
  /\ sample_to_audio 127 = 0%float
  /\ sample_to_audio 254 = 1%float
  /\ PrimFloat.ltb 1 (sample_to_audio 255) = true.
Proof.
  intros Hd.
  assert (Hin : In data sample_values).
  { unfold sample_values. apply in_map_iff. exists (Z.to_nat data).
    split; [lia|]. apply in_seq. lia. }
  pose proof sample_values_in_range as H. rewrite forallb_forall in H.
  specialize (H data Hin). unfold audio_in_range in H.
  apply andb_prop in H as [H1 H2].
  split; [exact H1|]. split; [exact H2|].
  repeat split; vm_compute; reflexivity.
Qed.

Lemma sample_to_audio_range_witness :
  0 <= 38 <= 254
  /\ PrimFloat.leb (-1) (sample_to_audio 38) = true
  /\ PrimFloat.leb (sample_to_audio 38) 1 = true.
Proof.
  split; [lia|].
  destruct (sample_to_audio_range 38 ltac:(lia)) as (H1 & H2 & _).
  split; assumption.
Defined.

(** X7.  When the transport position in seconds plus the offset, cut to an
    integer, is a total from 0 up to 2^31 - 1, [update()] sets the time of
    the day of that total: hours below 24, minutes and seconds below 60,
    whole days dropped, frame 0. *)
Theorem initial_timecode_of_day (current_flicks smpte_offset : Z) :
  let total :=
    Double.to_signed 64
      (Double.of_Z current_flicks / 705600000 + Double.of_Z smpte_offset)%float in
  0 <= total < 2 ^ 31 ->
  let st := initial_timecode current_flicks smpte_offset in
  st = {| hours := total mod 86400 / 3600; mins := total mod 3600 / 60;
          secs := total mod 60; frame := 0 |}
  /\ 0 <= hours st < 24 /\ 0 <= mins st < 60 /\ 0 <= secs st < 60
  /\ hours st * 3600 + mins st * 60 + secs st = total mod 86400.
Proof.
  intros total Ht st. subst st. unfold initial_timecode. fold total.
  rewrite (decompose_of_day total Ht). cbn [hours mins secs].
  split; [reflexivity|]. repeat split; Z.div_mod_to_equations; lia.
Qed.

Lemma initial_timecode_of_day_witness :
  Double.to_signed 64
    (Double.of_Z (20 * 705600000) / 705600000 + Double.of_Z 90051)%float
  = 90071
  /\ initial_timecode (20 * 705600000) 90051
     = {| hours := 1; mins := 1; secs := 11; frame := 0 |}.
Proof.
  split; [vm_compute; reflexivity|].
  destruct (initial_timecode_of_day (20 * 705600000) 90051) as [H _].
  - vm_compute. split; [discriminate|reflexivity].
  - rewrite H. vm_compute. reflexivity.
Defined.

Section Buffering.
Context {codec : LTCEncoderOps}.

Lemma emit_buffered fuel tempo n : forall frame s done rest,
  (n <= length (m_buffer s))%nat ->
  out_audio s = done ++ rest ->
  length done = Z.to_nat frame -> 0 <= frame ->
  (n <= length rest)%nat ->
  emit fuel tempo n frame s
  = ({| in_offset := in_offset s; in_rate := in_rate s;
        out_audio :=
          done ++ map sample_to_audio (take n (m_buffer s)) ++ drop n rest;
        setup_rate := setup_rate s; m_encoder := m_encoder s;
        m_current_byte := m_current_byte s;
        m_buffer := drop n (m_buffer s);
        m_buffer_capacity := m_buffer_capacity s;
        m_current_flicks := m_current_flicks s;
        calls := calls s |}, true).
Proof.
  induction n as [|n IH]; intros frame s done rest Hb Ho Hd Hf Hr.
  - destruct s; cbn in *. now subst.
  - cbn [emit].
    destruct (m_buffer s) as [|data buf] eqn:Eb; [simpl in Hb; lia|].
    rewrite fill_full by (rewrite Eb; discriminate). rewrite Eb.
    destruct rest as [|r rest]; [simpl in Hr; lia|].
    rewrite (IH (frame + 1) _ (done ++ [sample_to_audio data]) rest).
    + cbn [in_offset in_rate setup_rate m_encoder m_current_byte m_buffer
           m_buffer_capacity m_current_flicks calls take drop map].
      rewrite <- app_assoc. reflexivity.
    + cbn [m_buffer]. simpl in Hb. lia.
    + cbn [out_audio]. rewrite Ho.
      rewrite insert_app_r_alt by lia.
      rewrite Hd, Nat.sub_diag. cbn. now rewrite <- app_assoc.
    + rewrite length_app. cbn [length]. lia.
    + lia.
    + simpl in Hr. lia.
Qed.

(** X8.  Backpressure: a tick that finds at least as many samples in the
    buffer as it has frames (a tick without frames included) returns without
    touching the encoder; it emits the mapped samples from the front of the
    buffer in order and leaves the rest of the buffer for the next tick. *)
Theorem buffered_tick_does_not_encode (fuel : nat) (tk : tick) (s : state) :
  (Z.to_nat (frames tk) <= length (m_buffer s))%nat ->
  let n := Z.to_nat (frames tk) in
  let r := operator fuel tk s in
  snd r = true
  /\ calls (fst r) = calls s
  /\ m_encoder (fst r) = m_encoder s
  /\ m_current_byte (fst r) = m_current_byte s
  /\ out_audio (fst r) = map sample_to_audio (take n (m_buffer s))
  /\ m_buffer (fst r) = drop n (m_buffer s).
Proof.
  intros Hb n r. subst r. unfold operator. fold n.
  rewrite (emit_buffered fuel (tempo tk) n 0 _ [] (replicate n 0%float)).
  - cbn [fst snd calls m_encoder m_current_byte out_audio m_buffer app].
    repeat split.
    rewrite drop_ge by (rewrite length_replicate; lia). apply app_nil_r.
  - exact Hb.
  - reflexivity.
  - reflexivity.
  - lia.
  - rewrite length_replicate. lia.
Qed.













End Buffering.

Lemma buffered_tick_does_not_encode_witness :
  let s := fst (operator 1 {| frames := 10; tempo := 120; start_in_flicks := 0 |}
                  (prepare 48000 constructed)) in
  let tk := {| frames := 5; tempo := 240; start_in_flicks := 7 |} in
  length (m_buffer s) = 22%nat
  /\ calls (fst (operator 0 tk s)) = calls s
  /\ length (m_buffer (fst (operator 0 tk s))) = 17%nat.
Proof.
  cbv zeta. split; [reflexivity|].
  match goal with |- calls (fst (operator 0 ?tk ?s)) = _ /\ _ =>
    destruct (buffered_tick_does_not_encode 0 tk s) as (_ & Hc & _ & _ & _ & Hb) end.
  - vm_compute. lia.
  - split; [exact Hc|]. rewrite Hb. reflexivity.
Defined.



End LTCGenerator.

(** ** The DVS engine: [ao::XWaxDVS] *)

Module XWaxDVS.

Inductive VinylType :=
  | Serato_2a | Serato_2b | Serato_CD
  | Traktor_A | Traktor_B | Traktor_MK2_A | Traktor_MK2_B | Traktor_MK2_CD
  | MixVibes_V2 | MixVibes_7inch
  | Pioneer_A | Pioneer_B.

Inductive Speed := RPM_33 | RPM_45.

Inductive PitchFilter := Kalman | AlphaBeta.

(** [static_cast<int>] of the three enumerations. *)
Definition vinyl_index (v : VinylType) : Z :=
  match v with
  | Serato_2a => 0 | Serato_2b => 1 | Serato_CD => 2
  | Traktor_A => 3 | Traktor_B => 4 | Traktor_MK2_A => 5
  | Traktor_MK2_B => 6 | Traktor_MK2_CD => 7
  | MixVibes_V2 => 8 | MixVibes_7inch => 9
  | Pioneer_A => 10 | Pioneer_B => 11
  end.

Definition speed_index (v : Speed) : Z :=
  match v with RPM_33 => 0 | RPM_45 => 1 end.

Definition filter_index (v : PitchFilter) : Z :=
  match v with Kalman => 0 | AlphaBeta => 1 end.

Definition timecode_names : list string :=
  [ "serato_2a"; "serato_2b"; "serato_cd"; "traktor_a"; "traktor_b";
    "traktor_mk2_a"; "traktor_mk2_b"; "traktor_mk2_cd"; "mixvibes_v2";
    "mixvibes_7inch"; "pioneer_a"; "pioneer_b" ]%string.

Definition QUALITY_RING_SIZE : Z := 32.

(** The controls and the audio bus as the host hands them to a tick.  The
    lead-in and the tempo are single-precision controls, read as doubles. *)
Record Inputs := mkInputs {
  channels : Z;
  left_channel : list float;
  right_channel : list float;
  vinyl_type : VinylType;
  speed : Speed;
  pitch_filter : PitchFilter;
  leadin : float;
  tempo : float
}.

Record Outputs := mkOutputs {
  out_speed : float;
  out_tempo : float;
  position : float;
  timecode : Z;
  quality : float;
  valid : bool
}.

(** What [timecoder_init] was called with; the timecoder itself is xwax's. *)
Record timecoder := mkTimecoder {
  tc_def : string;
  tc_speed : float;
  tc_sample_rate : Z;
  tc_phono : bool;
  tc_legacy_pitch : bool
}.

(** The members that track the signal quality, kept together. *)
Record Quality := mkQuality {
  m_quality_ring : list Z;
  m_quality_ring_index : Z;
  m_quality_ring_filled : Z;
  m_quality_last_position : Z;
  m_quality_last_pitch : float
}.

(** The object's members.  [m_timecoder] is allocated by the constructor
    and never null; the model keeps in it what it was last initialised
    with. *)
Record state := mkState {
  outputs : Outputs;
  m_setup_rate : float;
  m_timecoder : option timecoder;
  m_timecode_def : option string;
  m_work_buffer : list Z;
  m_last_vinyl_type : Z;
  m_last_speed : Z;
  m_last_pitch_filter : Z;
  tracking : Quality;
  m_initialized : bool
}.

(** One call of [operator()]: the frame count, the controls, and what xwax
    answers during the call: whether [timecoder_find_definition] finds a
    name, and the pitch and the position in milliseconds (or -1) the
    timecoder reports after the samples were submitted. *)
Record tick := mkTick {
  frames : Z;
  inputs : Inputs;
  find_definition : string -> bool;
  pitch : float;
  position_ms : Z
}.

Definition fresh_quality : Quality :=
  {| m_quality_ring := replicate 32 0;
     m_quality_ring_index := 0;
     m_quality_ring_filled := 0;
     m_quality_last_position := -1;
     m_quality_last_pitch := 0 |}.

Definition zero_outputs : Outputs :=
  {| out_speed := 0; out_tempo := 0; position := 0; timecode := -1;
     quality := 0; valid := false |}.

(** The members' initial values. *)
Definition constructed : state :=
  {| outputs := {| out_speed := 0; out_tempo := 0; position := 0;
                   timecode := 0; quality := 0; valid := false |};
     m_setup_rate := 0;
     m_timecoder := None;
     m_timecode_def := None;
     m_work_buffer := [];
     m_last_vinyl_type := -1;
     m_last_speed := -1;
     m_last_pitch_filter := -1;
     tracking := fresh_quality;
     m_initialized := false |}.

Definition get_timecode_name (i : Inputs) : string :=
  let idx := vinyl_index (vinyl_type i) in
  if (0 <=? idx) && (idx <? Z.of_nat (length timecode_names))
  then nth (Z.to_nat idx) timecode_names "serato_2a"%string
  else "serato_2a"%string.

Definition get_speed_multiplier (i : Inputs) : float :=
  match speed i with RPM_45 => 1.35%float | RPM_33 => 1%float end.

Definition clear_timecoder (s : state) : state :=
  {| outputs := outputs s; m_setup_rate := m_setup_rate s;
     m_timecoder := if m_initialized s then None else m_timecoder s;
     m_timecode_def := None;
     m_work_buffer := m_work_buffer s;
     m_last_vinyl_type := m_last_vinyl_type s;
     m_last_speed := m_last_speed s;
     m_last_pitch_filter := m_last_pitch_filter s;
     tracking := tracking s;
     m_initialized := false |}.

(** [static_cast<unsigned int>(rate)]; 0 where C++ leaves it undefined. *)
Definition to_unsigned32 (f : float) : Z :=
  match Double.trunc f with
  | Some z => if (0 <=? z) && (z <? 2 ^ 32) then z else 0
  | None => 0
  end.

Definition init_timecoder (tk : tick) (s : state) : state :=
  let s0 := clear_timecoder s in
  if PrimFloat.leb (m_setup_rate s0) 0 then s0
  else
    let i := inputs tk in
    let timecode_name := get_timecode_name i in
    let speed := get_speed_multiplier i in
    let use_legacy_pitch := filter_index (pitch_filter i) =? 1 in
    let found :=
      if find_definition tk timecode_name then Some timecode_name
      else if find_definition tk "serato_2a"%string
           then Some "serato_2a"%string
           else None in
    match found with
    | None =>
        {| outputs := outputs s0; m_setup_rate := m_setup_rate s0;
           m_timecoder := m_timecoder s0; m_timecode_def := None;
           m_work_buffer := m_work_buffer s0;
           m_last_vinyl_type := m_last_vinyl_type s0;
           m_last_speed := m_last_speed s0;
           m_last_pitch_filter := m_last_pitch_filter s0;
           tracking := tracking s0; m_initialized := false |}
    | Some def =>
        {| outputs := outputs s0; m_setup_rate := m_setup_rate s0;
           m_timecoder :=
             Some (mkTimecoder def speed (to_unsigned32 (m_setup_rate s0))
                     false use_legacy_pitch);
           m_timecode_def := Some def;
           m_work_buffer := m_work_buffer s0;
           m_last_vinyl_type := m_last_vinyl_type s0;
           m_last_speed := m_last_speed s0;
           m_last_pitch_filter := m_last_pitch_filter s0;
           tracking := fresh_quality;
           m_initialized := true |}
    end.

Definition prepare (rate : float) (s : state) : state :=
  {| outputs := outputs s; m_setup_rate := rate;
     m_timecoder := m_timecoder s; m_timecode_def := m_timecode_def s;
     m_work_buffer := m_work_buffer s;
     m_last_vinyl_type := -1; m_last_speed := -1; m_last_pitch_filter := -1;
     tracking := tracking s; m_initialized := m_initialized s |}.

(** The controls differ from the ones the timecoder was last built for. *)
Definition settings_changed (tk : tick) (s : state) : bool :=
  negb (vinyl_index (vinyl_type (inputs tk)) =? m_last_vinyl_type s)
  || negb (speed_index (speed (inputs tk)) =? m_last_speed s)
  || negb (filter_index (pitch_filter (inputs tk)) =? m_last_pitch_filter s).

(** The first block of [operator()]: rebuild the timecoder when a control
    changed. *)
Definition reinit_if_changed (tk : tick) (s : state) : state :=
  if settings_changed tk s then
    let s1 := init_timecoder tk s in
    {| outputs := outputs s1; m_setup_rate := m_setup_rate s1;
       m_timecoder := m_timecoder s1; m_timecode_def := m_timecode_def s1;
       m_work_buffer := m_work_buffer s1;
       m_last_vinyl_type := vinyl_index (vinyl_type (inputs tk));
       m_last_speed := speed_index (speed (inputs tk));
       m_last_pitch_filter := filter_index (pitch_filter (inputs tk));
       tracking := tracking s1; m_initialized := m_initialized s1 |}
  else s.

Definition set_outputs (o : Outputs) (s : state) : state :=
  {| outputs := o; m_setup_rate := m_setup_rate s;
     m_timecoder := m_timecoder s; m_timecode_def := m_timecode_def s;
     m_work_buffer := m_work_buffer s;
     m_last_vinyl_type := m_last_vinyl_type s;
     m_last_speed := m_last_speed s;
     m_last_pitch_filter := m_last_pitch_filter s;
     tracking := tracking s; m_initialized := m_initialized s |}.

(** One sample scaled to 16 bits: [static_cast<signed short>(std::clamp(x *
    32767.0, -32768.0, 32767.0))]. *)
Definition to_short (x : float) : Z :=
  Double.to_signed 16 (Double.clamp (x * 32767) (-32768) 32767)%float.

(** The work buffer after the conversion loop: grown to two shorts per
    frame when it was smaller, then written frame by frame. *)
Definition fill_work_buffer (n : nat) (i : Inputs) (buf : list Z) : list Z :=
  let required := (n * 2)%nat in
  let buf0 := buf ++ replicate (required - length buf) 0 in
  fold_left
    (fun b k =>
       <[(k * 2 + 1)%nat := to_short (nth k (right_channel i) 0%float)]>
         (<[(k * 2)%nat := to_short (nth k (left_channel i) 0%float)]> b))
    (seq 0 n) buf0.

Definition position_quality (position_ms last_position : Z) : Z :=
  if position_ms =? -1 then 0
  else if (last_position =? -1)
          || (Z.abs (Int.wrap32 (position_ms - last_position)) >=? 5)
       then 100
       else 50.

Definition pitch_quality (filled : Z) (pitch last_pitch : float) : Z :=
  if 0 <? filled then
    let pitch_diff := (pitch - last_pitch)%float in
    if Double.neq pitch_diff 0 then
      let pitch_stability := PrimFloat.abs (pitch / pitch_diff) in
      if PrimFloat.ltb pitch_stability 3 then 0
      else if PrimFloat.ltb 6 pitch_stability then 100
      else 75
    else 0
  else 0.

(** [std::accumulate(first, last, 0)] on ints. *)
Definition accumulate (l : list Z) : Z :=
  fold_left (fun acc x => Int.wrap32 (acc + x)) l 0.

(** The quality output for a sum of [filled] ring entries. *)
Definition quality_of (quality_sum filled : Z) : float :=
  Double.clamp (Double.of_Z quality_sum / (2 * 100 * Double.of_Z filled))%float
    0 1.

(** The quality members after a tick that reported [pitch] and
    [position_ms]. *)
Definition track (pitch : float) (position_ms : Z) (q : Quality) : Quality :=
  let pq := position_quality position_ms (m_quality_last_position q) in
  let tq := pitch_quality (m_quality_ring_filled q) pitch (m_quality_last_pitch q) in
  {| m_quality_ring :=
       <[Z.to_nat (m_quality_ring_index q) := pq + tq]> (m_quality_ring q);
     m_quality_ring_index :=
       (m_quality_ring_index q + 1) mod QUALITY_RING_SIZE;
     m_quality_ring_filled :=
       if m_quality_ring_filled q <? QUALITY_RING_SIZE
       then m_quality_ring_filled q + 1
       else m_quality_ring_filled q;
     m_quality_last_position := position_ms;
     m_quality_last_pitch := pitch |}.

Definition windowed_quality (q : Quality) : float :=
  quality_of
    (accumulate (take (Z.to_nat (m_quality_ring_filled q)) (m_quality_ring q)))
    (m_quality_ring_filled q).

(** *** The ring and its entries stay in range *)

Definition in_unit (x : float) : bool := PrimFloat.leb 0 x && PrimFloat.leb x 1.

(** A score a tick can push: the two heuristics add up to a multiple of 25
    between 0 and 200. *)
Definition score (x : Z) : Prop := 0 <= x <= 200 /\ (25 | x).

(** The ring has its 32 slots, index and fill count are within it, and
    every slot holds a score. *)
Definition ring_ok (q : Quality) : Prop :=
  length (m_quality_ring q) = 32%nat
  /\ 0 <= m_quality_ring_index q < 32
  /\ 0 <= m_quality_ring_filled q <= 32
  /\ Forall score (m_quality_ring q).

Definition Zseq (a : Z) (n : nat) : list Z :=
  map (fun k => a + Z.of_nat k) (seq 0 n).

(** Every sum that [filled] scores can reach, 25 * m for m up to 8 *
    [filled], gives a quality in the unit interval. *)
Definition row_in_unit (filled : Z) : bool :=
  forallb (fun m => in_unit (quality_of (25 * m) filled))
    (Zseq 0 (Z.to_nat (8 * filled + 1))).

Lemma In_Zseq a n z : a <= z < a + Z.of_nat n -> In z (Zseq a n).
Proof.
  intros Hz. unfold Zseq. apply in_map_iff.
  exists (Z.to_nat (z - a)). split; [lia|]. apply in_seq. lia.
Qed.

Lemma forallb_Zseq (f : Z -> bool) a n z :
  forallb f (Zseq a n) = true -> a <= z < a + Z.of_nat n -> f z = true.
Proof.
  intros H Hz. rewrite forallb_forall in H. now apply H, In_Zseq.
Qed.

(** The 32 fill counts, checked one by one. *)
Lemma quality_table : forallb row_in_unit (Zseq 1 32) = true.
Proof. vm_compute. reflexivity. Qed.

Lemma quality_of_in_unit quality_sum filled :
  1 <= filled <= 32 -> 0 <= quality_sum <= 200 * filled -> (25 | quality_sum) ->
  in_unit (quality_of quality_sum filled) = true.
Proof.
  intros Hf Hs [m ->].
  assert (Hrow : row_in_unit filled = true)
    by (apply (forallb_Zseq row_in_unit 1 32 filled quality_table); lia).
  rewrite Z.mul_comm.
  apply (forallb_Zseq (fun m => in_unit (quality_of (25 * m) filled)) 0
           (Z.to_nat (8 * filled + 1)) m Hrow). lia.
Qed.

Lemma position_quality_range p last :
  position_quality p last = 0 \/ position_quality p last = 50
  \/ position_quality p last = 100.
Proof.
  unfold position_quality.
  destruct (p =? -1); [now left|].
  destruct (_ || _); [now right; right|now right; left].
Qed.

Lemma pitch_quality_range filled p last :
  pitch_quality filled p last = 0 \/ pitch_quality filled p last = 75
  \/ pitch_quality filled p last = 100.
Proof.
  unfold pitch_quality.
  destruct (0 <? filled); [|now left].
  destruct (Double.neq _ _); [|now left].
  destruct (PrimFloat.ltb _ 3); [now left|].
  destruct (PrimFloat.ltb 6 _); [now right; right|now right; left].
Qed.

Lemma tick_score p pos q :
  score (position_quality pos (m_quality_last_position q)
         + pitch_quality (m_quality_ring_filled q) p (m_quality_last_pitch q)).
Proof.
  destruct (position_quality_range pos (m_quality_last_position q))
    as [-> | [-> | ->]];
  destruct (pitch_quality_range (m_quality_ring_filled q) p (m_quality_last_pitch q))
    as [-> | [-> | ->]];
  (split; [lia|]);
  [exists 0|exists 3|exists 4|exists 2|exists 5|exists 6|exists 4|exists 7|exists 8];
  reflexivity.
Qed.

Lemma accumulate_from l : forall acc,
  Forall score l ->
  0 <= acc -> (25 | acc) -> acc + 200 * Z.of_nat (length l) < 2 ^ 31 ->
  acc <= fold_left (fun a x => Int.wrap32 (a + x)) l acc
      <= acc + 200 * Z.of_nat (length l)
  /\ (25 | fold_left (fun a x => Int.wrap32 (a + x)) l acc).
Proof.
  induction l as [|x l IH]; intros acc Hl Hacc Hdiv Hmax; simpl in *;
    [split; [lia|assumption]|].
  apply Forall_cons in Hl as [[Hx Hx25] Hl].
  rewrite Int.wrap32_small by lia.
  destruct (IH (acc + x) Hl) as [Hr Hd];
    [lia|now apply Z.divide_add_r|lia|]. split; [lia|exact Hd].
Qed.

Lemma accumulate_range l :
  Forall score l -> (length l <= 32)%nat ->
  0 <= accumulate l <= 200 * Z.of_nat (length l) /\ (25 | accumulate l).
Proof.
  intros Hl Hlen. unfold accumulate.
  apply (accumulate_from l 0 Hl); [lia|apply Z.divide_0_r|lia].
Qed.

Lemma fresh_quality_ok : ring_ok fresh_quality.
Proof.
  unfold ring_ok, fresh_quality;
    cbn [m_quality_ring m_quality_ring_index m_quality_ring_filled].
  split; [apply length_replicate|]. split; [lia|]. split; [lia|].
  apply Forall_replicate. split; [lia|apply Z.divide_0_r].
Qed.

Lemma track_ok p pos q :
  ring_ok q -> ring_ok (track p pos q) /\ 1 <= m_quality_ring_filled (track p pos q).
Proof.
  intros (Hlen & Hi & Hf & Hall). unfold ring_ok, track, QUALITY_RING_SIZE.
  cbn [m_quality_ring m_quality_ring_index m_quality_ring_filled].
  split; [split; [|split; [|split]]|].
  - now rewrite length_insert.
  - apply Z.mod_pos_bound. lia.
  - destruct (_ <? 32) eqn:E; [apply Z.ltb_lt in E|]; lia.
  - apply Forall_insert; [assumption|apply tick_score].
  - destruct (_ <? 32) eqn:E; [apply Z.ltb_lt in E|apply Z.ltb_ge in E]; lia.
Qed.

Lemma windowed_quality_in_unit q :
  ring_ok q -> 1 <= m_quality_ring_filled q ->
  in_unit (windowed_quality q) = true.
Proof.
  intros (Hlen & Hi & Hf & Hall) H1. unfold windowed_quality.
  pose proof (accumulate_range
    (take (Z.to_nat (m_quality_ring_filled q)) (m_quality_ring q))) as H.
  rewrite length_take, Hlen in H.
  replace (Z.to_nat (m_quality_ring_filled q) `min` 32)%nat
    with (Z.to_nat (m_quality_ring_filled q)) in H by lia.
  rewrite Z2Nat.id in H by lia.
  destruct H as [Hr Hd]; [now apply Forall_take|lia|].
  apply quality_of_in_unit; [lia|exact Hr|exact Hd].
Qed.

Section Engine.

(** [XWaxDVS] calls [this->convert_output] on the position but declares no
    such member: the conversion is a parameter of the engine. *)
Variable convert_output : float -> float.

(** A tick returns early when, after the timecoder was rebuilt if need be,
    it is not initialised, or the bus has fewer than two channels, or the
    tick has no frames. *)
Definition returns_early (tk : tick) (s : state) : bool :=
  negb (m_initialized (reinit_if_changed tk s))
  || (channels (inputs tk) <? 2) || (frames tk <=? 0).

(** [operator()(halp::tick_flicks tk)] *)
Definition operator (tk : tick) (s : state) : state :=
  let s1 := reinit_if_changed tk s in
  if negb (m_initialized s1) then set_outputs zero_outputs s1
  else if (channels (inputs tk) <? 2) || (frames tk <=? 0)
  then set_outputs zero_outputs s1
  else
    let i := inputs tk in
    let work := fill_work_buffer (Z.to_nat (frames tk)) i (m_work_buffer s1) in
    let locked := position_ms tk >=? 0 in
    let position_sec := (Double.of_Z (position_ms tk) / 1000)%float in
    let leadin_sec := leadin i in
    let q := track (pitch tk) (position_ms tk) (tracking s1) in
    {| outputs :=
         {| out_speed := pitch tk;
            out_tempo := (pitch tk * tempo i)%float;
            position :=
              if locked then convert_output (position_sec - leadin_sec)%float
              else 0%float;
            timecode :=
              if locked then Double.to_signed 32 (convert_output position_sec)
              else -1;
            quality := windowed_quality q;
            valid := locked |};
       m_setup_rate := m_setup_rate s1;
       m_timecoder := m_timecoder s1; m_timecode_def := m_timecode_def s1;
       m_work_buffer := work;
       m_last_vinyl_type := m_last_vinyl_type s1;
       m_last_speed := m_last_speed s1;
       m_last_pitch_filter := m_last_pitch_filter s1;
       tracking := q;
       m_initialized := m_initialized s1 |}.

Inductive event :=
  | EvPrepare (rate : float)
  | EvTick (tk : tick).

Definition step (s : state) (e : event) : state :=
  match e with
  | EvPrepare rate => prepare rate s
  | EvTick tk => operator tk s
  end.

Definition run (evs : list event) (s : state) : state := fold_left step evs s.

(** *** The two ways through a tick *)

Lemma reinit_unchanged tk s :
  settings_changed tk s = false -> reinit_if_changed tk s = s.
Proof. unfold reinit_if_changed. now intros ->. Qed.

Lemma init_timecoder_tracking tk s :
  (m_initialized (init_timecoder tk s) = true
   /\ tracking (init_timecoder tk s) = fresh_quality)
  \/ (m_initialized (init_timecoder tk s) = false
      /\ tracking (init_timecoder tk s) = tracking s).
Proof.
  unfold init_timecoder.
  destruct (PrimFloat.leb _ 0); [now right|].
  destruct (find_definition tk (get_timecode_name (inputs tk))); [now left|].
  destruct (find_definition tk "serato_2a"); [now left|now right].
Qed.

Lemma reinit_tracking tk s :
  (settings_changed tk s = true
   /\ m_initialized (reinit_if_changed tk s) = true
   /\ tracking (reinit_if_changed tk s) = fresh_quality)
  \/ tracking (reinit_if_changed tk s) = tracking s.
Proof.
  unfold reinit_if_changed.
  destruct (settings_changed tk s); [|now right].
  cbn [m_initialized tracking].
  destruct (init_timecoder_tracking tk s) as [[Hi Ht]|[Hi Ht]]; [left|right]; easy.
Qed.

Lemma operator_early tk s :
  returns_early tk s = true ->
  operator tk s = set_outputs zero_outputs (reinit_if_changed tk s).
Proof.
  unfold returns_early, operator. intros H.
  destruct (negb (m_initialized (reinit_if_changed tk s))); [reflexivity|].
  simpl in H. now rewrite H.
Qed.

Lemma operator_processed tk s :
  returns_early tk s = false ->
  let s1 := reinit_if_changed tk s in
  m_initialized s1 = true
  /\ tracking (operator tk s) = track (pitch tk) (position_ms tk) (tracking s1)
  /\ quality (outputs (operator tk s)) = windowed_quality (tracking (operator tk s))
  /\ m_initialized (operator tk s) = true
  /\ m_last_vinyl_type (operator tk s) = m_last_vinyl_type s1
  /\ m_last_speed (operator tk s) = m_last_speed s1
  /\ m_last_pitch_filter (operator tk s) = m_last_pitch_filter s1.
Proof.
  intros H. cbv zeta. unfold returns_early in H. unfold operator.
  set (s1 := reinit_if_changed tk s) in *.
  destruct (m_initialized s1) eqn:Hi; [|discriminate H].
  cbn [negb orb] in *. now rewrite H.
Qed.

(** *** Quality and ring stay in range through every run *)

Definition dvs_ok (s : state) : Prop :=
  ring_ok (tracking s) /\ in_unit (quality (outputs s)) = true.

Lemma constructed_ok : dvs_ok constructed.
Proof. split; [apply fresh_quality_ok|reflexivity]. Qed.

Lemma reinit_ring_ok tk s :
  ring_ok (tracking s) -> ring_ok (tracking (reinit_if_changed tk s)).
Proof.
  intros H. destruct (reinit_tracking tk s) as [(_ & _ & ->)| ->];
    [apply fresh_quality_ok|assumption].
Qed.

Lemma operator_ok tk s : dvs_ok s -> dvs_ok (operator tk s).
Proof.
  intros [Hr _]. pose proof (reinit_ring_ok tk s Hr) as Hr1.
  destruct (returns_early tk s) eqn:E.
  - rewrite (operator_early _ _ E). split; [exact Hr1|reflexivity].
  - destruct (operator_processed _ _ E) as (_ & Ht & Hq & _).
    destruct (track_ok (pitch tk) (position_ms tk) _ Hr1) as [Hok H1].
    split; [now rewrite Ht|].
    rewrite Hq, Ht. now apply windowed_quality_in_unit.
Qed.

Lemma run_ok evs : forall s, dvs_ok s -> dvs_ok (run evs s).
Proof.
  induction evs as [|e evs IH]; intros s Hs; [assumption|].
  apply IH. destruct e as [rate|tk]; [exact Hs|now apply operator_ok].
Qed.

(** *** The steady regime: 10 ms per tick at a constant pitch *)

(** The tick [tk] with the timecoder reporting [pos]. *)
Definition at_position (tk : tick) (pos : Z) : tick :=
  {| frames := frames tk; inputs := inputs tk;
     find_definition := find_definition tk; pitch := pitch tk;
     position_ms := pos |}.

(** [n] ticks like [tk], the position advancing by 10 ms from [p0]. *)
Definition steady (tk : tick) (p0 : Z) (n : nat) : list event :=
  map (fun k => EvTick (at_position tk (p0 + 10 * Z.of_nat k))) (seq 0 n).

Definition steady_track (p : float) (p0 : Z) (n : nat) (q : Quality) : Quality :=
  fold_left (fun q k => track p (p0 + 10 * Z.of_nat k) q) (seq 0 n) q.

Lemma steady_track_S p p0 n q :
  steady_track p p0 (S n) q
  = track p (p0 + 10 * Z.of_nat n) (steady_track p p0 n q).
Proof.
  unfold steady_track. now rewrite seq_S, fold_left_app.
Qed.

Lemma steady_S tk p0 n :
  steady tk p0 (S n)
  = steady tk p0 n ++ [EvTick (at_position tk (p0 + 10 * Z.of_nat n))].
Proof.
  unfold steady. now rewrite seq_S, map_app.
Qed.

Lemma track_filled p pos q :
  0 <= m_quality_ring_filled q <= 32 ->
  m_quality_ring_filled (track p pos q)
  = Z.min 32 (m_quality_ring_filled q + 1).
Proof.
  intros Hf. unfold track, QUALITY_RING_SIZE. cbn [m_quality_ring_filled].
  destruct (_ <? 32) eqn:E; [apply Z.ltb_lt in E|apply Z.ltb_ge in E]; lia.
Qed.

Lemma steady_track_shift p p0 n q :
  steady_track p p0 (S n) q = steady_track p (p0 + 10) n (track p p0 q).
Proof.
  unfold steady_track. cbn [seq fold_left].
  replace (p0 + 10 * Z.of_nat 0) with p0 by lia.
  generalize (track p p0 q) as q1. generalize 0%nat as a.
  induction n as [|n IH]; intros a q1; [reflexivity|].
  cbn [seq fold_left]. rewrite IH. do 2 f_equal. lia.
Qed.

(** The first tick of the regime scores 100 + 0 on [q]: the position moved
    by 5 ms or more (or there was none before), and the pitch did not. *)
Definition enters (p : float) (p0 : Z) (q : Quality) : Prop :=
  position_quality p0 (m_quality_last_position q) = 100
  /\ pitch_quality (m_quality_ring_filled q) p (m_quality_last_pitch q) = 0.

Lemma enters_fresh p p0 : 0 <= p0 -> enters p p0 fresh_quality.
Proof.
  intros Hp0. split; [|reflexivity].
  unfold position_quality, fresh_quality; cbn [m_quality_last_position].
  destruct (p0 =? -1) eqn:E; [apply Z.eqb_eq in E; lia|reflexivity].
Qed.

Lemma enters_after_tick p pos q :
  0 <= pos -> Double.neq (p - p) 0 = false ->
  enters p (pos + 10) (track p pos q).
Proof.
  intros Hpos Hp. unfold enters, track.
  cbn [m_quality_last_position m_quality_ring_filled m_quality_last_pitch].
  split.
  - unfold position_quality.
    destruct (pos + 10 =? -1) eqn:E; [apply Z.eqb_eq in E; lia|].
    replace (pos + 10 - pos) with 10 by lia. now rewrite orb_true_r.
  - unfold pitch_quality. rewrite Hp. now destruct (0 <? _).
Qed.

Lemma track_enters p pos q :
  enters p pos q ->
  m_quality_ring (track p pos q)
  = <[Z.to_nat (m_quality_ring_index q) := 100]> (m_quality_ring q).
Proof.
  intros [Hpq Htq]. unfold track. cbn [m_quality_ring]. now rewrite Hpq, Htq.
Qed.

(** After [n + 1] ticks of the regime the [n + 1] slots written last all
    hold 100. *)
Lemma steady_track_inv p p0 q :
  ring_ok q -> 0 <= p0 -> Double.neq (p - p) 0 = false -> enters p p0 q ->
  forall n,
    let q' := steady_track p p0 (S n) q in
    ring_ok q'
    /\ q' = track p (p0 + 10 * Z.of_nat n) (steady_track p p0 n q)
    /\ m_quality_ring_filled q'
       = Z.min 32 (m_quality_ring_filled q + Z.of_nat n + 1)
    /\ m_quality_ring_index q'
       = (m_quality_ring_index q + Z.of_nat n + 1) mod 32
    /\ (forall k, 0 <= k <= Z.of_nat n ->
          m_quality_ring q' !! Z.to_nat ((m_quality_ring_index q + k) mod 32)
          = Some 100).
Proof.
  intros Hq Hp0 Hp Hent n. pose proof Hq as (Hlen & Hi & Hf & Hall).
  induction n as [|n IH]; cbv zeta.
  - rewrite steady_track_S. change (steady_track p p0 0 q) with q.
    replace (p0 + 10 * Z.of_nat 0) with p0 by lia.
    destruct (track_ok p p0 q Hq) as [Hok H1].
    split; [exact Hok|]. split; [reflexivity|].
    split; [rewrite track_filled by lia; lia|].
    split; [unfold track, QUALITY_RING_SIZE; cbn; f_equal; lia|].
    intros k Hk. replace k with 0 by lia.
    rewrite Z.add_0_r, Z.mod_small by lia.
    rewrite track_enters by exact Hent.
    apply list_lookup_insert_eq. lia.
  - cbv zeta in IH. destruct IH as (Hok & Heq & Hfill & Hidx & Hslots).
    rewrite (steady_track_S p p0 (S n)).
    set (q1 := steady_track p p0 (S n) q) in *.
    destruct (track_ok p (p0 + 10 * Z.of_nat (S n)) q1 Hok) as [Hok' H1'].
    pose proof Hok as (Hlen1 & Hi1 & Hf1 & Hall1).
    assert (Hring : m_quality_ring (track p (p0 + 10 * Z.of_nat (S n)) q1)
                    = <[Z.to_nat (m_quality_ring_index q1) := 100]>
                        (m_quality_ring q1)).
    { apply track_enters. rewrite Heq.
      replace (p0 + 10 * Z.of_nat (S n)) with (p0 + 10 * Z.of_nat n + 10) by lia.
      apply enters_after_tick; [lia|exact Hp]. }
    split; [exact Hok'|]. split; [reflexivity|].
    split; [rewrite track_filled by lia; lia|].
    split.
    { unfold track, QUALITY_RING_SIZE. cbn [m_quality_ring_index].
      rewrite Hidx. rewrite Zplus_mod_idemp_l. f_equal. lia. }
    intros k Hk. rewrite Hring.
    destruct (decide (Z.to_nat (m_quality_ring_index q1)
                      = Z.to_nat ((m_quality_ring_index q + k) mod 32)))
      as [Heq'|Hne].
    + rewrite <- Heq'. apply list_lookup_insert_eq. lia.
    + rewrite list_lookup_insert_ne by exact Hne.
      apply Hslots. assert (k <> Z.of_nat (S n)); [|lia].
      intros ->. apply Hne. rewrite Hidx. do 2 f_equal. lia.
Qed.

(** After 32 ticks of the regime every slot holds 100. *)
Lemma steady_track_full p p0 q n :
  ring_ok q -> 0 <= p0 -> Double.neq (p - p) 0 = false -> enters p p0 q ->
  (31 <= n)%nat ->
  m_quality_ring (steady_track p p0 (S n) q) = replicate 32 100
  /\ m_quality_ring_filled (steady_track p p0 (S n) q) = 32.
Proof.
  intros Hq Hp0 Hp Hent Hn.
  destruct (steady_track_inv p p0 q Hq Hp0 Hp Hent n)
    as (Hok & _ & Hfill & _ & Hslots).
  destruct Hq as (_ & Hi & Hf & _). destruct Hok as (Hlen & _).
  split; [|lia].
  symmetry. apply replicate_as_Forall. split; [exact Hlen|].
  apply Forall_lookup. intros j x Hj.
  pose proof (lookup_lt_Some _ _ _ Hj) as Hlt. rewrite Hlen in Hlt.
  set (i := m_quality_ring_index q) in *.
  assert (Hk : (i + (Z.of_nat j - i) mod 32) mod 32 = Z.of_nat j)
    by (Z.div_mod_to_equations; lia).
  assert (Hr : 0 <= (Z.of_nat j - i) mod 32 < 32) by (apply Z.mod_pos_bound; lia).
  specialize (Hslots ((Z.of_nat j - i) mod 32) ltac:(lia)).
  rewrite Hk, Nat2Z.id in Hslots. congruence.
Qed.

(** While the ring fills after a rebuild, the filled slots all hold 100. *)
Lemma steady_track_fresh p p0 n :
  0 <= p0 -> Double.neq (p - p) 0 = false -> (n <= 31)%nat ->
  take (S n) (m_quality_ring (steady_track p p0 (S n) fresh_quality))
  = replicate (S n) 100
  /\ m_quality_ring_filled (steady_track p p0 (S n) fresh_quality)
     = Z.of_nat (S n).
Proof.
  intros Hp0 Hp Hn.
  destruct (steady_track_inv p p0 fresh_quality fresh_quality_ok Hp0 Hp
              (enters_fresh p p0 Hp0) n) as (Hok & _ & Hfill & _ & Hslots).
  destruct Hok as (Hlen & _).
  cbn [fresh_quality m_quality_ring_filled m_quality_ring_index] in Hfill, Hslots.
  split; [|lia].
  symmetry. apply replicate_as_Forall.
  split; [rewrite length_take, Hlen; lia|].
  apply Forall_lookup. intros j x Hj.
  pose proof (lookup_lt_Some _ _ _ Hj) as Hlt.
  rewrite length_take, Hlen in Hlt.
  rewrite lookup_take_lt in Hj by lia.
  specialize (Hslots (Z.of_nat j) ltac:(lia)).
  rewrite Z.add_0_l, Z.mod_small, Nat2Z.id in Hslots by lia. congruence.
Qed.

Lemma quality_of_full_score k :
  (1 <= k <= 32)%nat ->
  quality_of (accumulate (replicate k 100)) (Z.of_nat k) = 0.5%float.
Proof.
  intros [H1 H32]. destruct k as [|k]; [lia|].
  do 32 (destruct k as [|k]; [vm_compute; reflexivity|]). lia.
Qed.

Lemma steady_quality_half p p0 q n :
  ring_ok q -> 0 <= p0 -> Double.neq (p - p) 0 = false -> enters p p0 q ->
  (31 <= n)%nat ->
  windowed_quality (steady_track p p0 (S n) q) = 0.5%float.
Proof.
  intros Hq Hp0 Hp Hent Hn.
  destruct (steady_track_full p p0 q n Hq Hp0 Hp Hent Hn) as [Hring Hfill].
  unfold windowed_quality. rewrite Hring, Hfill.
  apply (quality_of_full_score 32). lia.
Qed.

Lemma steady_quality_half_fresh p p0 n :
  0 <= p0 -> Double.neq (p - p) 0 = false -> (1 <= n)%nat ->
  windowed_quality (steady_track p p0 n fresh_quality) = 0.5%float.
Proof.
  intros Hp0 Hp Hn. destruct n as [|n]; [lia|].
  destruct (Nat.le_gt_cases n 31) as [Hle|Hgt].
  - destruct (steady_track_fresh p p0 n Hp0 Hp Hle) as [Hring Hfill].
    unfold windowed_quality. rewrite Hfill, Nat2Z.id, Hring.
    apply quality_of_full_score. lia.
  - apply steady_quality_half;
      [apply fresh_quality_ok|assumption|assumption|now apply enters_fresh|lia].
Qed.

(** The engine is running with the controls of [tk]. *)
Definition running (tk : tick) (s : state) : Prop :=
  m_initialized s = true /\ settings_changed tk s = false
  /\ 2 <= channels (inputs tk) /\ 0 < frames tk.

Lemma operator_running tk pos s :
  running tk s ->
  running tk (operator (at_position tk pos) s)
  /\ tracking (operator (at_position tk pos) s)
     = track (pitch tk) pos (tracking s)
  /\ quality (outputs (operator (at_position tk pos) s))
     = windowed_quality (tracking (operator (at_position tk pos) s)).
Proof.
  intros (Hi & Hs & Hc & Hf).
  assert (Hs' : settings_changed (at_position tk pos) s = false) by exact Hs.
  assert (E : returns_early (at_position tk pos) s = false).
  { unfold returns_early. rewrite (reinit_unchanged _ _ Hs'), Hi.
    cbn [at_position inputs frames negb orb].
    destruct (channels (inputs tk) <? 2) eqn:E1; [apply Z.ltb_lt in E1; lia|].
    destruct (frames tk <=? 0) eqn:E2; [apply Z.leb_le in E2; lia|].
    reflexivity. }
  destruct (operator_processed _ _ E) as (_ & Ht & Hq & Hi' & Hv & Hsp & Hpf).
  rewrite (reinit_unchanged _ _ Hs') in *.
  split; [|split; [exact Ht|exact Hq]].
  split; [exact Hi'|]. split; [|split; assumption].
  unfold settings_changed in *. now rewrite Hv, Hsp, Hpf.
Qed.

Lemma run_app evs1 evs2 s : run (evs1 ++ evs2) s = run evs2 (run evs1 s).
Proof. apply fold_left_app. Qed.

Lemma run_steady tk p0 n : forall s,
  running tk s ->
  running tk (run (steady tk p0 n) s)
  /\ tracking (run (steady tk p0 n) s)
     = steady_track (pitch tk) p0 n (tracking s)
  /\ ((1 <= n)%nat ->
      quality (outputs (run (steady tk p0 n) s))
      = windowed_quality (tracking (run (steady tk p0 n) s))).
Proof.
  induction n as [|n IH]; intros s Hs.
  - split; [exact Hs|]. split; [reflexivity|lia].
  - destruct (IH s Hs) as (Hr & Ht & _).
    rewrite steady_S, run_app, steady_track_S.
    destruct (operator_running tk (p0 + 10 * Z.of_nat n) _ Hr) as (Hr' & Ht' & Hq').
    split; [exact Hr'|]. split; [|intros _; exact Hq'].
    cbn [run fold_left step]. now rewrite Ht', Ht.
Qed.

(** *** Ticks to run the engine on *)

Definition stereo_inputs : Inputs :=
  {| channels := 2;
     left_channel := [0.5%float; (-0.25)%float];
     right_channel := [2%float; (-2)%float];
     vinyl_type := Traktor_A; speed := RPM_33; pitch_filter := Kalman;
     leadin := 0; tempo := 120 |}.

(** Two frames of stereo audio; xwax knows every format, plays at nominal
    speed and reports [pos]. *)
Definition stereo_tick (pos : Z) : tick :=
  {| frames := 2; inputs := stereo_inputs; find_definition := fun _ => true;
     pitch := 1; position_ms := pos |}.


Definition prepared_44k : state := prepare 44100 constructed.

(** *** The claims about the quality score *)

(** C4.  Through every sequence of preparations and ticks the quality
    output is between 0 and 1, the ring has its 32 slots and its fill count
    never exceeds 32.  And when the engine is running and the timecoder then
    reports, tick after tick, a position 10 ms further at a pitch whose
    difference to itself is zero, every such tick after the first scores
    100 + 0, and the quality output is exactly 0.5 once 32 of these scores
    fill the ring, that is from the 33rd tick of the regime on; when the
    regime starts on a timecoder that was just rebuilt, its first tick scores
    100 + 0 as well and the quality output is 0.5 on every tick, the one that
    fills the ring included. *)
Theorem quality_range_and_steady_state :
  (forall evs,
     let s := run evs constructed in
     PrimFloat.leb 0 (quality (outputs s)) = true
     /\ PrimFloat.leb (quality (outputs s)) 1 = true
     /\ length (m_quality_ring (tracking s)) = 32%nat
     /\ 0 <= m_quality_ring_filled (tracking s) <= 32)
  /\ (forall evs tk p0 n,
        let s := run evs constructed in
        running tk s -> 0 <= p0 ->
        Double.neq (pitch tk - pitch tk) 0 = false ->
        let s' := run (steady tk p0 n) s in
        ((33 <= n)%nat ->
         quality (outputs s') = 0.5%float
         /\ m_quality_ring (tracking s') = replicate 32 100
         /\ m_quality_ring_filled (tracking s') = 32)
        /\ (tracking s = fresh_quality -> (1 <= n)%nat ->
            quality (outputs s') = 0.5%float
            /\ m_quality_ring_filled (tracking s') = Z.min 32 (Z.of_nat n))).
Proof.
  split.
  - intros evs s.
    destruct (run_ok evs constructed constructed_ok) as [(Hlen & _ & Hf & _) Hq].
    fold s in Hlen, Hf, Hq. unfold in_unit in Hq.
    apply andb_prop in Hq as [H0 H1]. easy.
  - intros evs tk p0 n s Hrun Hp0 Hp s'.
    destruct (run_ok evs constructed constructed_ok) as [Hq _]. fold s in Hq.
    destruct (run_steady tk p0 n s Hrun) as (_ & Ht & Hout). fold s' in Ht, Hout.
    split.
    + intros Hn. destruct n as [|[|m]]; [lia|lia|].
      rewrite Hout by lia. rewrite Ht, steady_track_shift.
      destruct (track_ok (pitch tk) p0 (tracking s) Hq) as [Hq1 _].
      pose proof (enters_after_tick (pitch tk) p0 (tracking s) Hp0 Hp) as Hent.
      destruct (steady_track_full (pitch tk) (p0 + 10) _ m Hq1 ltac:(lia) Hp Hent)
        as [Hr Hf]; [lia|].
      split; [apply steady_quality_half; try assumption; lia|]. easy.
    + intros Hfresh Hn. rewrite Hout by exact Hn. rewrite Ht, Hfresh.
      split; [now apply steady_quality_half_fresh|].
      destruct n as [|m]; [lia|].
      destruct (steady_track_inv (pitch tk) p0 fresh_quality fresh_quality_ok
                  Hp0 Hp (enters_fresh _ p0 Hp0) m) as (_ & _ & Hfill & _).
      rewrite Hfill. cbn [fresh_quality m_quality_ring_filled]. lia.
Qed.

(** C5, as the code has it.  When a change of a control rebuilds the
    timecoder and the rebuild succeeds (the sample rate is above 0 and xwax
    finds the format or the default one), the ring, its index and fill count
    and the last-position and last-pitch trackers are back at their initial
    values; and the first processed tick on such a state, the rebuilding tick
    itself or a later one, pushes position-quality + 0 into slot 0, where
    position-quality is 0 when the timecoder reports -1 and 100 otherwise,
    and pitch-quality is 0 because the ring is empty. *)
Theorem reinit_clears_quality_tracking (tk : tick) (s : state) :
  settings_changed tk s = true ->
  PrimFloat.leb (m_setup_rate s) 0 = false ->
  find_definition tk (get_timecode_name (inputs tk))
  || find_definition tk "serato_2a" = true ->
  let s1 := reinit_if_changed tk s in
  m_initialized s1 = true
  /\ tracking s1 = fresh_quality
  /\ (forall tk' s',
        tracking (reinit_if_changed tk' s') = fresh_quality ->
        returns_early tk' s' = false ->
        tracking (operator tk' s')
        = {| m_quality_ring :=
               <[0%nat := (if position_ms tk' =? -1 then 0 else 100) + 0]>
                 (replicate 32 0);
             m_quality_ring_index := 1;
             m_quality_ring_filled := 1;
             m_quality_last_position := position_ms tk';
             m_quality_last_pitch := pitch tk' |}).
Proof.
  intros Hch Hrate Hfind s1.
  assert (H1 : m_initialized s1 = true /\ tracking s1 = fresh_quality).
  { subst s1. unfold reinit_if_changed. rewrite Hch.
    cbn [m_initialized tracking]. unfold init_timecoder.
    cbn [clear_timecoder m_setup_rate]. rewrite Hrate.
    destruct (find_definition tk (get_timecode_name (inputs tk))); [easy|].
    simpl in Hfind. now rewrite Hfind. }
  destruct H1 as [Hi Ht]. split; [exact Hi|]. split; [exact Ht|].
  intros tk' s' Hfresh Hproc.
  destruct (operator_processed _ _ Hproc) as (_ & -> & _).
  rewrite Hfresh. unfold track, fresh_quality, position_quality, pitch_quality.
  cbn [m_quality_ring m_quality_ring_index m_quality_ring_filled
       m_quality_last_position m_quality_last_pitch].
  now destruct (position_ms tk' =? -1).
Qed.

(** *** Ticks that return early *)




(** C3 at a locked position of 1500 ms without lead-in: both the position
    and the timecode output are computed from 1.5, the position in seconds,
    so the timecode output is the integer part of the same converted value
    and not 1500.  Without a lock the outputs are 0, -1 and false. *)
Theorem locked_outputs_from_seconds :
  let locked := outputs (operator (stereo_tick 1500) prepared_44k) in
  let unlocked := outputs (operator (stereo_tick (-1)) prepared_44k) in
  position locked = convert_output 1.5
  /\ timecode locked = Double.to_signed 32 (convert_output 1.5)
  /\ valid locked = true
  /\ position unlocked = 0%float
  /\ timecode unlocked = -1
  /\ valid unlocked = false.
Proof. cbv zeta. repeat split. Qed.

End Engine.

(** *** The engine on concrete ticks, with the identity as conversion *)

Definition seconds (x : float) : float := x.

Example work_buffer_is_clamped :
  m_work_buffer (operator seconds (stereo_tick 0) prepared_44k)
  = [16383; 32767; -8191; -32768].
Proof. vm_compute. reflexivity. Qed.

Example timecode_output_in_whole_seconds :
  let o := outputs (operator seconds (stereo_tick 1500) prepared_44k) in
  position o = 1.5%float /\ timecode o = 1.
Proof. vm_compute. repeat split. Qed.

Lemma quality_range_and_steady_state_witness :
  let s := run seconds [EvPrepare 44100; EvTick (stereo_tick 990)] constructed in
  running (stereo_tick 0) s
  /\ quality (outputs (run seconds (steady (stereo_tick 0) 1000 33) s))
     = 0.5%float.
Proof.
  cbv zeta.
  assert (Hrun : running (stereo_tick 0)
            (run seconds [EvPrepare 44100; EvTick (stereo_tick 990)] constructed))
    by (repeat split; discriminate).
  split; [exact Hrun|].
  destruct (quality_range_and_steady_state seconds) as [_ H].
  destruct (H [EvPrepare 44100; EvTick (stereo_tick 990)] (stereo_tick 0) 1000
              33%nat Hrun ltac:(discriminate) eq_refl) as [H33 _].
  apply (H33 (le_n 33)).
Defined.

(** C5 as it is stated fails when the timecoder is locked on the first
    tick after the rebuild: the missing prior position counts as a change
    and the score pushed is 100, not 0. *)
Lemma first_tick_pushes_100_when_locked :
  let s := operator seconds (stereo_tick 1500) prepared_44k in
  settings_changed (stereo_tick 1500) prepared_44k = true
  /\ take 1 (m_quality_ring (tracking s)) = [100]
  /\ m_quality_ring_filled (tracking s) = 1
  /\ quality (outputs s) = 0.5%float.
Proof. vm_compute. repeat split. Qed.

Lemma reinit_clears_quality_tracking_witness :
  let used := run seconds [EvPrepare 44100; EvTick (stereo_tick 990);
                           EvTick (stereo_tick 1000)] constructed in
  let tk := at_position
              {| frames := 2;
                 inputs := {| channels := 2; left_channel := [];
                              right_channel := []; vinyl_type := Serato_2a;
                              speed := RPM_45; pitch_filter := Kalman;
                              leadin := 0; tempo := 120 |};
                 find_definition := fun _ => true; pitch := 1;
                 position_ms := 0 |} (-1) in
  m_quality_ring_filled (tracking used) = 2
  /\ settings_changed tk used = true
  /\ tracking (reinit_if_changed tk used) = fresh_quality
  /\ take 1 (m_quality_ring (tracking (operator seconds tk used))) = [0].
Proof.
  cbv zeta. split; [reflexivity|]. split; [reflexivity|].
  match goal with |- tracking (reinit_if_changed ?tk ?s) = _ /\ _ =>
    destruct (reinit_clears_quality_tracking seconds tk s eq_refl eq_refl eq_refl)
      as (_ & Hfresh & Hpush) end.
  split; [exact Hfresh|].
  rewrite (Hpush _ _ Hfresh eq_refl). reflexivity.
Defined.



(** *** Further behaviour of the DVS engine *)

(** The tick [tk] with the timecoder reporting the pitch and position [r]. *)
Definition reporting (tk : tick) (r : float * Z) : tick :=
  {| frames := frames tk; inputs := inputs tk;
     find_definition := find_definition tk; pitch := fst r;
     position_ms := snd r |}.



(** X10.  Each vinyl format has its own entry of the name table: the name
    looked up is the entry at the format's index, never the out-of-range
    default, and two formats never share a name. *)
Theorem timecode_name_of_each_format (i i' : Inputs) :
  nth_error timecode_names (Z.to_nat (vinyl_index (vinyl_type i)))
  = Some (get_timecode_name i)
  /\ (get_timecode_name i = get_timecode_name i' ->
      vinyl_type i = vinyl_type i').
Proof.
  unfold get_timecode_name. split.
  - now destruct (vinyl_type i).
  - destruct (vinyl_type i), (vinyl_type i'); cbn; intros H;
      first [reflexivity|discriminate H].
Qed.

(** X11.  The work buffer after the conversion loop: it has grown to two
    shorts per frame when it was smaller and never shrinks; frame [k] has its
    left sample at [2k] and its right sample at [2k + 1], each scaled by
    32767 and clamped to 16 bits (a missing sample reads as 0); what lies
    behind the tick's frames is left as it was. *)
Theorem work_buffer_interleaves (n : nat) (i : Inputs) (buf : list Z) :
  let w := fill_work_buffer n i buf in
  length w = Nat.max (length buf) (n * 2)
  /\ (forall k, (k < n)%nat ->
        w !! (k * 2)%nat = Some (to_short (nth k (left_channel i) 0%float))
        /\ w !! (k * 2 + 1)%nat
           = Some (to_short (nth k (right_channel i) 0%float)))
  /\ (forall j, (n * 2 <= j)%nat -> w !! j = buf !! j).
Proof.
  cbv zeta. unfold fill_work_buffer.
  set (buf0 := buf ++ replicate (n * 2 - length buf) 0).
  set (f := fun (b : list Z) (k : nat) =>
              <[(k * 2 + 1)%nat := to_short (nth k (right_channel i) 0%float)]>
                (<[(k * 2)%nat := to_short (nth k (left_channel i) 0%float)]> b)).
  assert (Hlen0 : length buf0 = Nat.max (length buf) (n * 2)).
  { subst buf0. rewrite length_app, length_replicate. lia. }
  assert (Hinv : forall m, (m <= n)%nat ->
            length (fold_left f (seq 0 m) buf0) = length buf0
            /\ (forall k, (k < m)%nat ->
                  fold_left f (seq 0 m) buf0 !! (k * 2)%nat
                  = Some (to_short (nth k (left_channel i) 0%float))
                  /\ fold_left f (seq 0 m) buf0 !! (k * 2 + 1)%nat
                     = Some (to_short (nth k (right_channel i) 0%float)))
            /\ (forall j, (m * 2 <= j)%nat ->
                  fold_left f (seq 0 m) buf0 !! j = buf0 !! j)).
  { induction m as [|m IH]; intros Hm.
    - cbn. split; [reflexivity|]. split; [intros k Hk; lia|reflexivity].
    - destruct (IH ltac:(lia)) as (Hl & Hw & Hrest).
      rewrite seq_S, fold_left_app. cbn [fold_left Nat.add].
      set (b := fold_left f (seq 0 m) buf0) in *.
      unfold f.
      split; [now rewrite !length_insert|]. split.
      + intros k Hk. destruct (decide (k = m)) as [->|Hne].
        * split.
          -- rewrite list_lookup_insert_ne by lia.
             apply list_lookup_insert_eq. lia.
          -- apply list_lookup_insert_eq. rewrite length_insert. lia.
        * destruct (Hw k ltac:(lia)) as [H1 H2].
          rewrite !list_lookup_insert_ne by lia. now split.
      + intros j Hj. rewrite !list_lookup_insert_ne by lia.
        apply Hrest. lia. }
  destruct (Hinv n (le_n n)) as (Hl & Hw & Hrest).
  split; [now rewrite Hl|]. split; [exact Hw|].
  intros j Hj. rewrite (Hrest j Hj). subst buf0.
  destruct (Nat.le_gt_cases (length buf) j) as [Hge|Hlt].
  - rewrite (lookup_ge_None_2 buf j Hge). apply lookup_ge_None_2.
    rewrite length_app, length_replicate. lia.
  - now rewrite lookup_app_l.
Qed.

Section Running.
Variable convert_output : float -> float.


Lemma init_timecoder_succeeds tk s :
  PrimFloat.leb (m_setup_rate s) 0 = false ->
  find_definition tk (get_timecode_name (inputs tk))
  || find_definition tk "serato_2a" = true ->
  m_initialized (init_timecoder tk s) = true
  /\ tracking (init_timecoder tk s) = fresh_quality
  /\ m_timecode_def (init_timecoder tk s)
     = Some (if find_definition tk (get_timecode_name (inputs tk))
             then get_timecode_name (inputs tk) else "serato_2a"%string)
  /\ m_timecoder (init_timecoder tk s)
     = Some {| tc_def :=
                 if find_definition tk (get_timecode_name (inputs tk))
                 then get_timecode_name (inputs tk) else "serato_2a"%string;
               tc_speed :=
                 match speed (inputs tk) with
                 | RPM_45 => 1.35%float
                 | RPM_33 => 1%float
                 end;
               tc_sample_rate := to_unsigned32 (m_setup_rate s);
               tc_phono := false;
               tc_legacy_pitch :=
                 match pitch_filter (inputs tk) with
                 | AlphaBeta => true
                 | Kalman => false
                 end |}.
Proof.
  intros Hrate Hfind. unfold init_timecoder.
  cbn [clear_timecoder m_setup_rate]. rewrite Hrate.
  destruct (find_definition tk (get_timecode_name (inputs tk))).
  - cbn. repeat split. now destruct (pitch_filter (inputs tk)).
  - simpl in Hfind. rewrite Hfind. cbn. repeat split.
    now destruct (pitch_filter (inputs tk)).
Qed.


Lemma settings_recorded tk s :
  settings_changed tk (reinit_if_changed tk s) = false.
Proof.
  unfold reinit_if_changed. destruct (settings_changed tk s) eqn:E; [|exact E].
  unfold settings_changed.
  cbn [m_last_vinyl_type m_last_speed m_last_pitch_filter].
  now rewrite !Z.eqb_refl.
Qed.


(** X13.  [prepare] forces a rebuild: whatever the controls, the next tick
    finds them changed; when the sample rate is above 0 and xwax knows the
    format or the default, the timecoder is built for the format found, at
    speed 1.35 for 45 RPM and 1 otherwise, with the legacy pitch filter for
    AlphaBeta, and the quality history starts afresh. *)
Theorem prepare_forces_rebuild (rate : float) (tk : tick) (s : state) :
  PrimFloat.leb rate 0 = false ->
  find_definition tk (get_timecode_name (inputs tk))
  || find_definition tk "serato_2a" = true ->
  let s1 := reinit_if_changed tk (prepare rate s) in
  settings_changed tk (prepare rate s) = true
  /\ m_initialized s1 = true
  /\ tracking s1 = fresh_quality
  /\ m_timecoder s1
     = Some {| tc_def :=
                 if find_definition tk (get_timecode_name (inputs tk))
                 then get_timecode_name (inputs tk) else "serato_2a"%string;
               tc_speed :=
                 match speed (inputs tk) with
                 | RPM_45 => 1.35%float
                 | RPM_33 => 1%float
                 end;
               tc_sample_rate := to_unsigned32 rate;
               tc_phono := false;
               tc_legacy_pitch :=
                 match pitch_filter (inputs tk) with
                 | AlphaBeta => true
                 | Kalman => false
                 end |}
  /\ settings_changed tk s1 = false.
Proof.
  intros Hrate Hfind s1.
  assert (Hch : settings_changed tk (prepare rate s) = true).
  { unfold settings_changed, prepare. cbn [m_last_vinyl_type].
    now destruct (vinyl_type (inputs tk)). }
  split; [exact Hch|].
  destruct (init_timecoder_succeeds tk (prepare rate s) Hrate Hfind)
    as (Hi & Ht & _ & Htc).
  subst s1. split; [|split; [|split]].
  - unfold reinit_if_changed. rewrite Hch. exact Hi.
  - unfold reinit_if_changed. rewrite Hch. exact Ht.
  - unfold reinit_if_changed. rewrite Hch. exact Htc.
  - apply settings_recorded.
Qed.

Lemma operator_reporting tk r s :
  running tk s ->
  running tk (operator convert_output (reporting tk r) s)
  /\ tracking (operator convert_output (reporting tk r) s)
     = track (fst r) (snd r) (tracking s).
Proof.
  intros (Hi & Hs & Hc & Hf).
  assert (Hs' : settings_changed (reporting tk r) s = false) by exact Hs.
  assert (E : returns_early (reporting tk r) s = false).
  { unfold returns_early. rewrite (reinit_unchanged _ _ Hs'), Hi.
    cbn [reporting inputs frames negb orb].
    destruct (channels (inputs tk) <? 2) eqn:E1; [apply Z.ltb_lt in E1; lia|].
    destruct (frames tk <=? 0) eqn:E2; [apply Z.leb_le in E2; lia|].
    reflexivity. }
  destruct (operator_processed convert_output _ _ E)
    as (_ & Ht & _ & Hi' & Hv & Hsp & Hpf).
  rewrite (reinit_unchanged _ _ Hs') in *.
  split; [|exact Ht].
  split; [exact Hi'|]. split; [|split; assumption].
  unfold settings_changed in *. now rewrite Hv, Hsp, Hpf.
Qed.

(** X14.  The ring as a ring: while the engine runs with unchanged
    controls, every processed tick, whatever the timecoder reports, moves the
    write index one slot on, modulo 32, and the fill count up by one until it
    stays at 32; the trackers hold the last report. *)
Theorem ring_index_and_fill_count
    (tk : tick) (reports : list (float * Z)) (last : float * Z) (s : state) :
  running tk s ->
  m_quality_ring_filled (tracking s) <= 32 ->
  let n := Z.of_nat (length (reports ++ [last])) in
  let q := tracking (run convert_output
                       (map (fun r => EvTick (reporting tk r)) (reports ++ [last]))
                       s) in
  m_quality_ring_index q = (m_quality_ring_index (tracking s) + n) mod 32
  /\ m_quality_ring_filled q
     = Z.min 32 (m_quality_ring_filled (tracking s) + n)
  /\ m_quality_last_pitch q = fst last
  /\ m_quality_last_position q = snd last.
Proof.
  intros Hrun Hf.
  assert (Hgen : forall rs s0,
            running tk s0 -> m_quality_ring_filled (tracking s0) <= 32 ->
            let s1 := run convert_output
                        (map (fun r => EvTick (reporting tk r)) rs) s0 in
            running tk s1
            /\ m_quality_ring_index (tracking s1) mod 32
               = (m_quality_ring_index (tracking s0) + Z.of_nat (length rs)) mod 32
            /\ m_quality_ring_filled (tracking s1)
               = (if m_quality_ring_filled (tracking s0) <? 32
                  then Z.min 32 (m_quality_ring_filled (tracking s0)
                                 + Z.of_nat (length rs))
                  else m_quality_ring_filled (tracking s0))).
  { induction rs as [|r rs IH]; intros s0 Hr0 Hf0; cbv zeta.
    - cbn [map run fold_left length]. split; [exact Hr0|].
      split; [f_equal; lia|].
      destruct (_ <? 32) eqn:E; [apply Z.ltb_lt in E; lia|reflexivity].
    - change (run convert_output
                (map (fun r => EvTick (reporting tk r)) (r :: rs)) s0)
        with (run convert_output (map (fun r => EvTick (reporting tk r)) rs)
                (operator convert_output (reporting tk r) s0)).
      cbn [length].
      destruct (operator_reporting tk r s0 Hr0) as [Hr1 Ht1].
      assert (Hf1 : m_quality_ring_filled
                      (tracking (operator convert_output (reporting tk r) s0))
                    <= 32).
      { rewrite Ht1. unfold track, QUALITY_RING_SIZE.
        cbn [m_quality_ring_filled].
        destruct (_ <? 32) eqn:E; [apply Z.ltb_lt in E|]; lia. }
      specialize (IH _ Hr1 Hf1). cbv zeta in IH.
      destruct IH as (Hr2 & Hi2 & Hf2).
      split; [exact Hr2|]. rewrite Hi2, Hf2, Ht1.
      unfold track, QUALITY_RING_SIZE.
      cbn [m_quality_ring_index m_quality_ring_filled].
      split.
      + rewrite Zplus_mod_idemp_l. f_equal. lia.
      + destruct (m_quality_ring_filled (tracking s0) <? 32) eqn:E.
        * apply Z.ltb_lt in E.
          destruct (m_quality_ring_filled (tracking s0) + 1 <? 32) eqn:E';
            [apply Z.ltb_lt in E'|apply Z.ltb_ge in E']; lia.
        * apply Z.ltb_ge in E.
          destruct (m_quality_ring_filled (tracking s0) <? 32) eqn:E';
            [apply Z.ltb_lt in E'; lia|reflexivity]. }
  cbv zeta. rewrite map_app, run_app.
  destruct (Hgen reports s Hrun Hf) as (Hr1 & Hi1 & Hf1). cbv zeta in Hi1, Hf1.
  set (s1 := run convert_output
               (map (fun r => EvTick (reporting tk r)) reports) s) in *.
  change (run convert_output (map (fun r => EvTick (reporting tk r)) [last]) s1)
    with (operator convert_output (reporting tk last) s1).
  destruct (operator_reporting tk last s1 Hr1) as [_ Ht].
  rewrite Ht. unfold track, QUALITY_RING_SIZE.
  cbn [m_quality_ring_index m_quality_ring_filled m_quality_last_pitch
       m_quality_last_position].
  rewrite length_app. cbn [length].
  split; [|split; [|split; reflexivity]].
  - rewrite <- Zplus_mod_idemp_l, Hi1, Zplus_mod_idemp_l. f_equal. lia.
  - rewrite Hf1.
    destruct (m_quality_ring_filled (tracking s) <? 32) eqn:E;
      [apply Z.ltb_lt in E|apply Z.ltb_ge in E].
    + destruct (Z.min 32 _ <? 32) eqn:E';
        [apply Z.ltb_lt in E'|apply Z.ltb_ge in E']; lia.
    + destruct (m_quality_ring_filled (tracking s) <? 32) eqn:E';
        [apply Z.ltb_lt in E'; lia|lia].
Qed.

(** **** A regime in which every tick gets the same score *)

(** The score the tick reporting [r] gets on [q]. *)
Definition score_of (r : float * Z) (q : Quality) : Z :=
  position_quality (snd r) (m_quality_last_position q)
  + pitch_quality (m_quality_ring_filled q) (fst r) (m_quality_last_pitch q).

Definition tracks (rs : list (float * Z)) (q : Quality) : Quality :=
  fold_left (fun q r => track (fst r) (snd r) q) rs q.

(** Every report of [rs], taken in order from [q], scores [c]. *)
Fixpoint all_score (c : Z) (rs : list (float * Z)) (q : Quality) : Prop :=
  match rs with
  | [] => True
  | r :: rs' => score_of r q = c /\ all_score c rs' (track (fst r) (snd r) q)
  end.

Lemma track_ring r q :
  m_quality_ring (track (fst r) (snd r) q)
  = <[Z.to_nat (m_quality_ring_index q) := score_of r q]> (m_quality_ring q).
Proof. reflexivity. Qed.

Lemma tracks_keep c rs : forall q j,
  ring_ok q -> all_score c rs q ->
  m_quality_ring q !! j = Some c ->
  m_quality_ring (tracks rs q) !! j = Some c.
Proof.
  induction rs as [|r rs IH]; intros q j Hq Hall Hj; [exact Hj|].
  destruct Hall as [Hc Hall]. cbn [tracks fold_left].
  destruct (track_ok (fst r) (snd r) q Hq) as [Hq1 _].
  apply (IH _ j Hq1 Hall). rewrite track_ring, Hc.
  destruct (decide (Z.to_nat (m_quality_ring_index q) = j)) as [<-|Hne].
  - apply list_lookup_insert_eq. destruct Hq as (Hlen & Hi & _). lia.
  - now rewrite list_lookup_insert_ne.
Qed.

Lemma tracks_fill c rs : forall q,
  ring_ok q -> all_score c rs q ->
  ring_ok (tracks rs q)
  /\ m_quality_ring_filled (tracks rs q)
     = Z.min 32 (m_quality_ring_filled q + Z.of_nat (length rs))
  /\ (forall k, 0 <= k < Z.of_nat (length rs) ->
        m_quality_ring (tracks rs q)
          !! Z.to_nat ((m_quality_ring_index q + k) mod 32)
        = Some c).
Proof.
  induction rs as [|r rs IH]; intros q Hq Hall.
  { cbn. split; [exact Hq|]. destruct Hq as (_ & _ & Hf & _).
    split; [lia|intros k Hk; lia]. }
  destruct Hall as [Hc Hall]. cbn [tracks fold_left length].
  destruct (track_ok (fst r) (snd r) q Hq) as [Hq1 _].
  destruct (IH _ Hq1 Hall) as (Hok & Hfill & Hslots).
  pose proof Hq as (Hlen & Hi & Hf & _).
  split; [exact Hok|]. split.
  { fold (tracks rs (track (fst r) (snd r) q)). rewrite Hfill.
    rewrite track_filled by lia. lia. }
  intros k Hk. fold (tracks rs (track (fst r) (snd r) q)).
  destruct (decide (k = 0)) as [->|Hk0].
  - apply (tracks_keep c rs _ _ Hq1 Hall).
    rewrite track_ring, Hc, Z.add_0_r, Z.mod_small by lia.
    apply list_lookup_insert_eq. lia.
  - specialize (Hslots (k - 1) ltac:(lia)).
    assert (Hidx : m_quality_ring_index (track (fst r) (snd r) q)
                   = (m_quality_ring_index q + 1) mod 32) by reflexivity.
    rewrite Hidx, Zplus_mod_idemp_l in Hslots.
    now replace (m_quality_ring_index q + 1 + (k - 1))
      with (m_quality_ring_index q + k) in Hslots by lia.
Qed.

Lemma tracks_constant c rs q :
  ring_ok q -> all_score c rs q -> (32 <= length rs)%nat ->
  windowed_quality (tracks rs q) = quality_of (accumulate (replicate 32 c)) 32.
Proof.
  intros Hq Hall Hn.
  destruct (tracks_fill c rs q Hq Hall) as (Hok & Hfill & Hslots).
  pose proof Hq as (_ & Hi & Hf & _). pose proof Hok as (Hlen & _).
  assert (Hring : m_quality_ring (tracks rs q) = replicate 32 c).
  { symmetry. apply replicate_as_Forall. split; [exact Hlen|].
    apply Forall_lookup. intros j x Hj.
    pose proof (lookup_lt_Some _ _ _ Hj) as Hlt. rewrite Hlen in Hlt.
    set (i := m_quality_ring_index q) in *.
    assert (Hk : (i + (Z.of_nat j - i) mod 32) mod 32 = Z.of_nat j)
      by (Z.div_mod_to_equations; lia).
    assert (Hr : 0 <= (Z.of_nat j - i) mod 32 < 32)
      by (apply Z.mod_pos_bound; lia).
    specialize (Hslots ((Z.of_nat j - i) mod 32) ltac:(lia)).
    rewrite Hk, Nat2Z.id in Hslots. congruence. }
  unfold windowed_quality. rewrite Hring, Hfill.
  replace (Z.min 32 (m_quality_ring_filled q + Z.of_nat (length rs)))
    with 32 by lia.
  reflexivity.
Qed.

(** Once the trackers hold the report [(p, pos)], repeating it scores 50
    with a lock and 0 without. *)
Lemma repeated_report_scores p pos n : forall q,
  -1 <= pos -> Double.neq (p - p) 0 = false ->
  m_quality_last_position q = pos -> m_quality_last_pitch q = p ->
  all_score (if pos =? -1 then 0 else 50) (repeat (p, pos) n) q.
Proof.
  induction n as [|n IH]; intros q Hpos Hp Hlp Hlq; [exact I|].
  cbn [repeat all_score fst snd]. split.
  - unfold score_of, position_quality, pitch_quality. cbn [fst snd].
    rewrite Hlp, Hlq, Hp, Z.sub_diag.
    destruct (pos =? -1) eqn:E; [now destruct (0 <? _)|].
    cbn. now destruct (0 <? _).
  - apply IH; try assumption; reflexivity.
Qed.

Lemma run_reporting tk rs : forall s,
  running tk s ->
  running tk (run convert_output (map (fun r => EvTick (reporting tk r)) rs) s)
  /\ tracking (run convert_output (map (fun r => EvTick (reporting tk r)) rs) s)
     = tracks rs (tracking s)
  /\ (rs <> [] ->
      quality
        (outputs (run convert_output
                    (map (fun r => EvTick (reporting tk r)) rs) s))
      = windowed_quality (tracks rs (tracking s))).
Proof.
  induction rs as [|r rs IH] using rev_ind; intros s Hs.
  { split; [exact Hs|]. split; [reflexivity|congruence]. }
  destruct (IH s Hs) as (Hr & Ht & _).
  rewrite map_app, run_app. unfold tracks. rewrite fold_left_app.
  fold (tracks rs (tracking s)).
  set (s1 := run convert_output (map (fun r => EvTick (reporting tk r)) rs) s) in *.
  change (run convert_output (map (fun r => EvTick (reporting tk r)) [r]) s1)
    with (operator convert_output (reporting tk r) s1).
  destruct (operator_reporting tk r s1 Hr) as [Hr' Ht'].
  split; [exact Hr'|]. cbn [fold_left]. rewrite <- Ht.
  split; [exact Ht'|]. intros _.
  destruct Hr as (Hi & Hsc & Hc & Hf).
  assert (Hs' : settings_changed (reporting tk r) s1 = false) by exact Hsc.
  assert (E : returns_early (reporting tk r) s1 = false).
  { unfold returns_early. rewrite (reinit_unchanged _ _ Hs'), Hi.
    cbn [reporting inputs frames negb orb].
    destruct (channels (inputs tk) <? 2) eqn:E1; [apply Z.ltb_lt in E1; lia|].
    destruct (frames tk <=? 0) eqn:E2; [apply Z.leb_le in E2; lia|].
    reflexivity. }
  destruct (operator_processed convert_output _ _ E) as (_ & _ & Hq & _).
  now rewrite Hq, Ht'.
Qed.

(** X15.  When the engine is running and the timecoder then repeats one
    report tick after tick, at a pitch whose difference to itself is zero,
    the quality output is, from the 33rd such tick on, exactly 0.25 for a
    position that stands still with a lock (every tick scores 50 + 0) and
    exactly 0 without a lock (the position -1 scores 0 + 0). *)
Theorem quality_of_a_repeated_report
    (evs : list event) (tk : tick) (p : float) (pos : Z) (n : nat) :
  let s := run convert_output evs constructed in
  running tk s ->
  -1 <= pos ->
  Double.neq (p - p) 0 = false ->
  (33 <= n)%nat ->
  quality
    (outputs (run convert_output
                (map (fun r => EvTick (reporting tk r)) (repeat (p, pos) n)) s))
  = if pos =? -1 then 0%float else 0.25%float.
Proof.
  intros s Hrun Hpos Hp Hn.
  destruct (run_ok convert_output evs constructed (constructed_ok)) as [Hq _].
  fold s in Hq.
  destruct (run_reporting tk (repeat (p, pos) n) s Hrun) as (_ & _ & Hout).
  rewrite Hout by (destruct n; [lia|discriminate]).
  destruct n as [|n]; [lia|]. cbn [repeat tracks fold_left].
  fold (tracks (repeat (p, pos) n) (track p pos (tracking s))).
  destruct (track_ok p pos (tracking s) Hq) as [Hq1 _].
  rewrite (tracks_constant (if pos =? -1 then 0 else 50) _ _ Hq1).
  - destruct (pos =? -1); vm_compute; reflexivity.
  - apply repeated_report_scores; try assumption; reflexivity.
  - rewrite repeat_length. lia.
Qed.

End Running.


Lemma prepare_forces_rebuild_witness :
  let used := run seconds [EvPrepare 44100; EvTick (stereo_tick 990);
                           EvTick (stereo_tick 1000)] constructed in
  m_quality_ring_filled (tracking used) = 2
  /\ settings_changed (stereo_tick 1010) used = false
  /\ settings_changed (stereo_tick 1010) (prepare 48000 used) = true
  /\ tracking (reinit_if_changed (stereo_tick 1010) (prepare 48000 used))
     = fresh_quality.
Proof.
  cbv zeta. split; [reflexivity|]. split; [reflexivity|].
  match goal with |- settings_changed ?tk (prepare ?r ?s) = _ /\ _ =>
    destruct (prepare_forces_rebuild r tk s eq_refl eq_refl)
      as (H1 & _ & H3 & _) end.
  split; [exact H1|exact H3].
Defined.

Lemma quality_of_a_repeated_report_witness :
  let evs := [EvPrepare 44100; EvTick (stereo_tick 990)] in
  running (stereo_tick 0) (run seconds evs constructed)
  /\ quality
       (outputs (run seconds
                   (map (fun r => EvTick (reporting (stereo_tick 0) r))
                        (repeat (1%float, 990) 33))
                   (run seconds evs constructed)))
     = 0.25%float.
Proof.
  cbv zeta.
  assert (Hrun : running (stereo_tick 0)
            (run seconds [EvPrepare 44100; EvTick (stereo_tick 990)] constructed))
    by (repeat split; discriminate).
  split; [exact Hrun|].
  apply (quality_of_a_repeated_report seconds
           [EvPrepare 44100; EvTick (stereo_tick 990)] (stereo_tick 0)
           1%float 990 33 Hrun ltac:(discriminate) eq_refl (le_n 33)).
Defined.

Lemma ring_index_and_fill_count_witness :
  let s := run seconds [EvPrepare 44100; EvTick (stereo_tick 990)] constructed in
  let reports := repeat (1%float, -1) 39 in
  running (stereo_tick 0) s
  /\ m_quality_ring_index
       (tracking (run seconds
          (map (fun r => EvTick (reporting (stereo_tick 0) r))
               (reports ++ [(0.5%float, 7)])) s)) = 9
  /\ m_quality_ring_filled
       (tracking (run seconds
          (map (fun r => EvTick (reporting (stereo_tick 0) r))
               (reports ++ [(0.5%float, 7)])) s)) = 32.
Proof.
  cbv zeta.
  assert (Hrun : running (stereo_tick 0)
            (run seconds [EvPrepare 44100; EvTick (stereo_tick 990)] constructed))
    by (repeat split; discriminate).
  split; [exact Hrun|].
  destruct (ring_index_and_fill_count seconds (stereo_tick 0)
              (repeat (1%float, -1) 39) (0.5%float, 7) _ Hrun)
    as (H1 & H2 & _).
  - discriminate.
  - split; [rewrite H1; reflexivity|rewrite H2; reflexivity].
Defined.

End XWaxDVS.
